(** * oto_estimation_checker: a shallow embedding and its properties

    The program reads the records of an UTAU timing file ([oto.ini]),
    sorts them, drops the records that are not continuous aliases, groups
    the rest per wav file, estimates a start time and a beat length by
    medians and lists the wav files whose records lie outside a tolerance
    band around these estimates.

    Numbers: the program computes with Python floats.  The file has the
    functions twice.  The first embedding idealises the numbers as exact
    rationals ([Q]); it carries the properties of order and structure:
    sorting, filtering, grouping, which names a check can return and in
    which order, how the lists at two thresholds compare, what is written.
    The second embedding, module [B64], has the numbers as IEEE binary64
    floats with every operation rounded as Python rounds it; it carries the
    statements about what the estimates and the checks compute.

    Strings: a Python [str] is represented by its UTF-8 bytes.  UTF-8 keeps
    the order of code points under bytewise lexicographic comparison and is
    self-synchronising, so [<], [==] and [in] on [str] agree with the
    bytewise operations used below. *)

From Stdlib Require Import QArith Lqa Lia ZArith List Bool.
From Stdlib Require Import String Ascii DecimalString Permutation Sorted.
From Stdlib Require Import OrderedTypeEx RelationClasses.
From Stdlib Require PrimFloat FloatOps FloatAxioms SpecFloat.
Import ListNotations.

Local Open Scope Q_scope.

Set Warnings "-inexact-float".

(** ** Python runtime: exceptions and the error monad *)

Module Py.

(** The exceptions the modelled code can raise. [ExternalError] stands for
    whatever the parsing collaborator raises on a file it cannot read. *)
Inductive exn : Type :=
| StatisticsError (msg : string)
| IndexError (msg : string)
| UnboundLocalError (name : string)
| AssertionError (msg : string)
| ExternalError (msg : string)
| OverflowError (msg : string)
| ValueError (msg : string).


Inductive result (A : Type) : Type :=
| Ok (a : A)
| Raise (e : exn).

Arguments Ok {A} a.
Arguments Raise {A} e.

Definition bind {A B : Type} (r : result A) (k : A -> result B) : result B :=
  match r with
  | Ok a => k a
  | Raise e => Raise e
  end.

Definition map_result {A B : Type} (f : A -> B) (r : result A) : result B :=
  bind r (fun a => Ok (f a)).

(** [l[i]] for a non-negative index. *)
Definition index {A : Type} (l : list A) (i : nat) : result A :=
  match nth_error l i with
  | Some a => Ok a
  | None => Raise (IndexError "list index out of range")
  end.

(** [enumerate(l, start)]. *)
Fixpoint enumerate {A : Type} (l : list A) (start : nat) : list (nat * A) :=
  match l with
  | [] => []
  | a :: l' => (start, a) :: enumerate l' (S start)
  end.

(** [pat in s] on strings. *)
Fixpoint contains (pat s : string) : bool :=
  if String.prefix pat s then true
  else match s with
       | EmptyString => false
       | String _ s' => contains pat s'
       end.

(** [sorted(l, key=...)]: a stable sort that compares keys with [<] only.
    [lt a b] is [key(a) < key(b)].  The element inserted last stood first in
    the input, so it goes in front of the elements it is not greater than. *)
Section Sorted.
Context {A : Type} (lt : A -> A -> bool).

Fixpoint insert (x : A) (s : list A) : list A :=
  match s with
  | [] => [x]
  | y :: s' => if lt y x then y :: insert x s' else x :: y :: s'
  end.

Fixpoint sorted (l : list A) : list A :=
  match l with
  | [] => []
  | x :: l' => insert x (sorted l')
  end.

End Sorted.

Definition Qltb (a b : Q) : bool := negb (Qle_bool b a).

(** [statistics.median]: the middle element of the sorted data, the mean of
    the two middle elements when their number is even, and a
    [StatisticsError] on empty data. *)
Definition median (data : list Q) : result Q :=
  let data := sorted Qltb data in
  let n := List.length data in
  if Nat.eqb n 0 then Raise (StatisticsError "no median for empty data")
  else if Nat.odd n then Ok (nth (n / 2) data 0)
  else let i := (n / 2)%nat in
       Ok ((nth (i - 1) data 0 + nth i data 0) / 2).

(** [int(x)] on a number: truncation towards zero. *)
Definition int (x : Q) : Z := Z.quot (Qnum x) (Zpos (Qden x)).

(** [str(n)] on an integer. *)
Definition str_of_int (n : Z) : string :=
  DecimalString.NilZero.string_of_int (Z.to_int n).

(** [sep.join(l)]. *)
Definition join (sep : string) (l : list string) : string := String.concat sep l.

(** [s.strip(chars)] for a one-character set. *)
Fixpoint lstrip (c : ascii) (s : string) : string :=
  match s with
  | String a s' => if Ascii.eqb a c then lstrip c s' else s
  | EmptyString => EmptyString
  end.

Definition rev_string (s : string) : string :=
  string_of_list_ascii (rev (list_ascii_of_string s)).

Definition strip (c : ascii) (s : string) : string :=
  rev_string (lstrip c (rev_string (lstrip c s))).

End Py.

Import Py.

Notation "x <- c1 ;; c2" := (Py.bind c1 (fun x => c2))
  (at level 61, c1 at next level, right associativity).

(** ** Data model (utaupy.otoini) *)

(** One line of an [oto.ini]: [utaupy.otoini.Oto]. *)
Record Oto : Type := mkOto {
  filename : string;
  alias : string;
  offset : Q;
  overlap : Q;
  preutterance : Q;
  consonant : Q;
  cutoff : Q
}.

(** [utaupy.otoini.OtoIni]: a [UserList]; iterating it and taking its length
    go through its attribute [data]. *)
Record OtoIni : Type := mkOtoIni { data : list Oto }.

Definition set_data (otoini : OtoIni) (l : list Oto) : OtoIni :=
  {| data := l |}.

(** ** The functions of oto_estimation_checker.py *)

(** [remove_cv_and_rest]: assigns the comprehension to [otoini.data] and
    returns [None]; the pair is the returned value and the object after the
    call. *)
Definition remove_cv_and_rest (otoini : OtoIni) : unit * OtoIni :=
  (tt, set_data otoini
         (filter (fun oto => forallb (fun b => b)
                    [ contains " " (alias oto);
                      negb (contains " R" (alias oto));
                      negb (contains " -" (alias oto));
                      negb (contains "息" (alias oto));
                      negb (contains " を" (alias oto)) ])
                 (data otoini))).

(** [attrgetter('filename', 'offset')] and [<] on the tuples it returns:
    the first components that differ decide. *)
Definition attrgetter_filename_offset (oto : Oto) : string * Q :=
  (filename oto, offset oto).

Definition tuple_lt (a b : string * Q) : bool :=
  if negb (String.eqb (fst a) (fst b)) then String.ltb (fst a) (fst b)
  else if negb (Qeq_bool (snd a) (snd b)) then Qltb (snd a) (snd b)
  else false.

Definition key_lt (a b : Oto) : bool :=
  tuple_lt (attrgetter_filename_offset a) (attrgetter_filename_offset b).

Definition sorted_otoini (otoini : OtoIni) : list Oto :=
  let sorted_otoini_obj := sorted key_lt (data otoini) in
  sorted_otoini_obj.

Fixpoint first_preutterances (list_oto_2d : list (list Oto)) : result (list Q) :=
  match list_oto_2d with
  | [] => Ok []
  | l_oto :: rest =>
      first <- index l_oto 0 ;;
      tl <- first_preutterances rest ;;
      Ok ((offset first + preutterance first) :: tl)
  end.

Definition median_of_first_preutterance (list_oto_2d : list (list Oto)) : result Q :=
  data <- first_preutterances list_oto_2d ;;
  median_start <- median data ;;
  Ok median_start.

(** The inner loop of [median_of_ms_per_beat] over
    [enumerate(l_oto[1:], 1)]; [l_times] is the list built so far. *)
Fixpoint ms_per_beat_inner (l_oto : list Oto) (it : list (nat * Oto))
    (l_times : list Q) : result (list Q) :=
  match it with
  | [] => Ok l_times
  | (i, oto) :: it' =>
      let current_start_time := offset oto + preutterance oto in
      prev <- index l_oto (i - 1) ;;
      let previous_start_time := offset prev + preutterance prev in
      let duration := current_start_time - previous_start_time in
      if negb (Qeq_bool duration 0)
      then ms_per_beat_inner l_oto it' (l_times ++ [duration])
      else ms_per_beat_inner l_oto it' l_times
  end.

Fixpoint ms_per_beat_outer (list_oto_2d : list (list Oto)) (l_times : list Q)
    : result (list Q) :=
  match list_oto_2d with
  | [] => Ok l_times
  | l_oto :: rest =>
      l_times <- ms_per_beat_inner l_oto (enumerate (tl l_oto) 1) l_times ;;
      ms_per_beat_outer rest l_times
  end.

Definition median_of_ms_per_beat (list_oto_2d : list (list Oto)) : result Q :=
  l_times <- ms_per_beat_outer list_oto_2d [] ;;
  median l_times.

(** [l.append(oto)] in [otoini_2d]: once bound, [l] is the very list object
    that was appended to [l_2d] last, so the append shows in the last
    element of [l_2d]. *)
Fixpoint append_to_l (l_2d : list (list Oto)) (oto : Oto) : list (list Oto) :=
  match l_2d with
  | [] => []
  | [l] => [l ++ [oto]]
  | g :: rest => g :: append_to_l rest oto
  end.

(** The loop of [otoini_2d]. [fname] is the local [filename]; [l_bound]
    tells whether the local [l] has been assigned. *)
Fixpoint otoini_2d_loop (it : list Oto) (l_2d : list (list Oto))
    (fname : string) (l_bound : bool) : result (list (list Oto)) :=
  match it with
  | [] => Ok l_2d
  | oto :: it' =>
      let '(l_2d, fname, l_bound) :=
        if negb (String.eqb fname (filename oto))
        then (l_2d ++ [[]], filename oto, true)
        else (l_2d, fname, l_bound) in
      if l_bound
      then otoini_2d_loop it' (append_to_l l_2d oto) fname l_bound
      else Raise (UnboundLocalError "l")
  end.

Definition otoini_2d (otoini : OtoIni) : result (list (list Oto)) :=
  otoini_2d_loop (data otoini) [] "" false.

Fixpoint detect_bad_wavfiles_loop (list_oto_2d : list (list Oto))
    (t_floor t_ceil : Q) (bad_start_filenames : list string)
    : result (list string) :=
  match list_oto_2d with
  | [] => Ok bad_start_filenames
  | l_oto :: rest =>
      first_oto <- index l_oto 0 ;;
      let t := offset first_oto + preutterance first_oto in
      if negb (Qltb t_floor t && Qltb t t_ceil)
      then detect_bad_wavfiles_loop rest t_floor t_ceil
             (bad_start_filenames ++ [filename first_oto])
      else detect_bad_wavfiles_loop rest t_floor t_ceil bad_start_filenames
  end.

Definition detect_bad_wavfiles (list_oto_2d : list (list Oto))
    (ms_per_beat median_start threshold : Q) : result (list string) :=
  let t_floor := median_start - ms_per_beat * threshold in
  let t_ceil := median_start + ms_per_beat * threshold in
  detect_bad_wavfiles_loop list_oto_2d t_floor t_ceil [].

(** The inner loop of [detect_bad_aliases]; [break] ends it with the
    filename appended. *)
Fixpoint detect_bad_aliases_inner (l_oto : list Oto) (it : list (nat * Oto))
    (ms_per_beat threshold : Q) (bad_alias_wavfiles : list string)
    : result (list string) :=
  match it with
  | [] => Ok bad_alias_wavfiles
  | (i, oto) :: it' =>
      let t_floor := ms_per_beat * (1 - threshold) in
      let t_ceil := ms_per_beat * (1 + threshold) in
      let current_start_time := offset oto + preutterance oto in
      prev <- index l_oto (i - 1) ;;
      let previous_start_time := offset prev + preutterance prev in
      let relative_position := current_start_time - previous_start_time in
      if Qeq_bool relative_position 0
      then detect_bad_aliases_inner l_oto it' ms_per_beat threshold
             bad_alias_wavfiles
      else if negb (Qltb t_floor relative_position
                    && Qltb relative_position t_ceil)
      then Ok (bad_alias_wavfiles ++ [filename oto])
      else detect_bad_aliases_inner l_oto it' ms_per_beat threshold
             bad_alias_wavfiles
  end.

Fixpoint detect_bad_aliases_outer (list_oto_2d : list (list Oto))
    (ms_per_beat threshold : Q) (bad_alias_wavfiles : list string)
    : result (list string) :=
  match list_oto_2d with
  | [] => Ok bad_alias_wavfiles
  | l_oto :: rest =>
      bad <- detect_bad_aliases_inner l_oto (enumerate (tl l_oto) 1)
               ms_per_beat threshold bad_alias_wavfiles ;;
      detect_bad_aliases_outer rest ms_per_beat threshold bad
  end.

Definition detect_bad_aliases (list_oto_2d : list (list Oto))
    (ms_per_beat threshold : Q) : result (list string) :=
  detect_bad_aliases_outer list_oto_2d ms_per_beat threshold [].

(** ** The run: files written, and [main] *)

(** What a written file holds: the records [OtoIni.write] serialises, or
    text. *)
Inductive file : Type :=
| OtoFile (records : list Oto)
| TextFile (text : string).

(** The files written so far, by name. *)
Definition World : Type := string -> option file.

Definition no_files : World := fun _ => None.

Definition write (w : World) (name : string) (f : file) : World :=
  fun n => if String.eqb n name then Some f else w n.

(** Computations that write files and may raise; what was written before an
    exception stays written. *)
Definition M (A : Type) : Type := World -> result A * World.

Definition ret {A : Type} (a : A) : M A := fun w => (Ok a, w).

Definition bindM {A B : Type} (c : M A) (k : A -> M B) : M B :=
  fun w => match c w with
           | (Ok a, w') => k a w'
           | (Raise e, w') => (Raise e, w')
           end.

Definition lift {A : Type} (r : result A) : M A := fun w => (r, w).

Definition write_file (name : string) (f : file) : M unit :=
  fun w => (Ok tt, write w name f).

Notation "x <~ c1 ;; c2" := (bindM c1 (fun x => c2))
  (at level 61, c1 at next level, right associativity).

Definition nl : string := String (ascii_of_nat 10) EmptyString.

Definition dquote : ascii := ascii_of_nat 34.

Definition str_len {A : Type} (l : list A) : string :=
  str_of_int (Z.of_nat (List.length l)).

Local Open Scope string_scope.

(** One block of the report: a heading and the two lists at one
    threshold. *)
Definition report_block (heading : string) (l_2d : list (list Oto))
    (ms_per_beat median_start threshold : Q) : result string :=
  let s := heading ++ "------------------" ++ nl in
  let s := s ++ "1拍めがずれてそう------------------" ++ nl in
  bad <- detect_bad_wavfiles l_2d ms_per_beat median_start threshold ;;
  let s := s ++ join nl bad ++ nl in
  let s := s ++ "2拍め以降がずれてそう--------------" ++ nl in
  bad <- detect_bad_aliases l_2d ms_per_beat threshold ;;
  Ok (s ++ join nl bad ++ nl ++ nl).

Section Main.

(** The collaborators of [main]: [os.path.isdir], [os.path.exists] and
    [utaupy.otoini.load]. *)
Variable isdir : string -> bool.
Variable exists_ : string -> bool.
Variable load : string -> result OtoIni.

(** [main]. The defaults [threshold = 0.5] of the two checks are never
    used: every call passes its threshold.  The banner and the prompts of
    the [__main__] block only feed [path] and are left out. *)
Definition main (path : string) : M unit :=
  let path := strip dquote path in
  path_otoini <~
    (if isdir path
     then let path_otoini := path ++ "/oto.ini" in
          if exists_ path_otoini then ret path_otoini
          else lift (Raise (AssertionError
                 "指定されたフォルダにoto.iniファイルがありません。"))
     else ret path) ;;
  let s := "" in
  otoini <~ lift (load path_otoini) ;;
  let otoini := set_data otoini (sorted_otoini otoini) in
  _ <~ write_file "sorted_otoini.txt" (OtoFile (data otoini)) ;;
  let s := s ++ "全エイリアス数: " ++ str_len (data otoini) ++ nl in
  let '(_, otoini) := remove_cv_and_rest otoini in
  let s := s ++ "連続音かつ非語尾エイリアス数: " ++ str_len (data otoini) ++ nl in
  l_2d <~ lift (otoini_2d otoini) ;;
  let s := s ++ "音声ファイル数: " ++ str_len l_2d ++ nl in
  median_start <~ lift (median_of_first_preutterance l_2d) ;;
  let s := s ++ "最初のエイリアスの発声時刻の中央値 (ms): "
             ++ str_of_int (int median_start) ++ nl in
  ms_per_beat <~ lift (median_of_ms_per_beat l_2d) ;;
  let s := s ++ "1拍当たりの時間の中央値 (ms): "
             ++ str_of_int (int ms_per_beat) ++ nl in
  let s := s ++ "median of time per beat (ms): "
             ++ str_of_int (int ms_per_beat) ++ nl in
  let s := s ++ nl ++ nl in
  b <~ lift (report_block "原音設定ミスの疑いがあるwavファイル名(明らかにずれてる)"
               l_2d ms_per_beat median_start (9 # 10)) ;;
  let s := s ++ b in
  b <~ lift (report_block "原音設定ミスの疑いがあるwavファイル名(緩く検出)"
               l_2d ms_per_beat median_start (3 # 10)) ;;
  let s := s ++ b in
  b <~ lift (report_block "原音設定ミスの疑いがあるwavファイル名(そこそこ検出)"
               l_2d ms_per_beat median_start (25 # 100)) ;;
  let s := s ++ b in
  b <~ lift (report_block "原音設定ミスの疑いがあるwavファイル名(厳しめに検出)"
               l_2d ms_per_beat median_start (2 # 10)) ;;
  let s := s ++ b in
  write_file "result.txt" (TextFile s).

(** The file [main] loads, if the path resolves: the path itself, or
    [oto.ini] inside it when it is a folder that has one. *)
Definition path_otoini_of (path : string) : option string :=
  let path := strip dquote path in
  if isdir path
  then if exists_ (path ++ "/oto.ini") then Some (path ++ "/oto.ini") else None
  else Some path.

End Main.

Local Close Scope string_scope.

(** ** Notions of the specification *)

(** The onset time of a record: window offset plus preutterance. *)
Definition onset_time (oto : Oto) : Q := offset oto + preutterance oto.

(** The distance between the onsets of two records. *)
Definition delta (prev curr : Oto) : Q := onset_time curr - onset_time prev.

(** The tolerance band of the inter-onset check, bounds excluded. *)
Definition in_band (ms_per_beat threshold d : Q) : Prop :=
  ms_per_beat * (1 - threshold) < d /\ d < ms_per_beat * (1 + threshold).

(** The tolerance band of the first-onset check, bounds excluded. *)
Definition in_start_band (ms_per_beat median_start threshold t : Q) : Prop :=
  median_start - ms_per_beat * threshold < t /\
  t < median_start + ms_per_beat * threshold.

(** All records of the group come from the wav file [f]. *)
Definition group_of (f : string) (g : list Oto) : Prop :=
  Forall (fun oto => filename oto = f) g.

(** A grouped dataset: every group is non-empty and holds the records of
    one wav file. *)
Definition grouped (list_oto_2d : list (list Oto)) : Prop :=
  Forall (fun g => g <> [] /\ exists f, group_of f g) list_oto_2d.

(** The scan of one group in the words of the specification: walk the
    consecutive pairs, skip a zero distance, stop at the first distance
    outside the band. *)
Fixpoint scan (ms_per_beat threshold : Q) (prev : Oto) (rest : list Oto)
    : list string :=
  match rest with
  | [] => []
  | curr :: rest' =>
      if Qeq_bool (delta prev curr) 0
      then scan ms_per_beat threshold curr rest'
      else if Qltb (ms_per_beat * (1 - threshold)) (delta prev curr)
              && Qltb (delta prev curr) (ms_per_beat * (1 + threshold))
      then scan ms_per_beat threshold curr rest'
      else [filename curr]
  end.

Definition scan_group (ms_per_beat threshold : Q) (g : list Oto) : list string :=
  match g with
  | [] => []
  | first :: rest => scan ms_per_beat threshold first rest
  end.

(** The first-onset check of one group in the words of the specification:
    only the first record counts. *)
Definition first_onset_flag (ms_per_beat median_start threshold : Q)
    (g : list Oto) : list string :=
  match g with
  | [] => []
  | first :: _ =>
      if Qltb (median_start - ms_per_beat * threshold) (onset_time first)
         && Qltb (onset_time first) (median_start + ms_per_beat * threshold)
      then []
      else [filename first]
  end.

(** A small dataset used to instantiate the statements below: two wav
    files, beats of 500 ms, one record of [b.wav] late by a beat. *)
Definition rec (f a : string) (off pre : Q) : Oto :=
  {| filename := f; alias := a; offset := off; overlap := 0;
     preutterance := pre; consonant := 0; cutoff := 0 |}.

Definition sample_groups : list (list Oto) :=
  [ [ rec "a.wav" "a k" 900 100; rec "a.wav" "a s" 1400 100;
      rec "a.wav" "a t" 1900 100 ];
    [ rec "b.wav" "i k" 900 100; rec "b.wav" "i s" 1400 100;
      rec "b.wav" "i t" 2400 100 ] ].

(** The durations of the specification: over all groups, the distances of
    the consecutive pairs, those equal to zero left out. *)
Definition durations_of_group (g : list Oto) : list Q :=
  filter (fun d => negb (Qeq_bool d 0))
         (map (fun pc => delta (fst pc) (snd pc)) (combine g (tl g))).

Definition durations (list_oto_2d : list (list Oto)) : list Q :=
  flat_map durations_of_group list_oto_2d.

(** Grouping in the words of the specification: cut the sequence into
    maximal runs of equal filename.  [cur] is the run being built, [f] its
    filename. *)
Fixpoint runs (f : string) (cur : list Oto) (it : list Oto) : list (list Oto) :=
  match it with
  | [] => [cur]
  | oto :: it' =>
      if String.eqb f (filename oto)
      then runs f (cur ++ [oto]) it'
      else cur :: runs (filename oto) [oto] it'
  end.

Definition group_runs (l : list Oto) : list (list Oto) :=
  match l with
  | [] => []
  | first :: rest => runs (filename first) [first] rest
  end.

(** The wav file of a group, read off its first record. *)
Definition group_file (g : list Oto) : string :=
  match g with
  | [] => EmptyString
  | first :: _ => filename first
  end.

(** Order on file names and on sort keys. *)
Definition str_lt (a b : string) : Prop := String.ltb a b = true.

Definition key_le (a b : Oto) : Prop :=
  str_lt (filename a) (filename b) \/
  (filename a = filename b /\ offset a <= offset b).

Definition offset_le (a b : Oto) : Prop := offset a <= offset b.

(** The records with file [f] and an offset equal to [o]. *)
Definition same_key (f : string) (o : Q) (oto : Oto) : bool :=
  String.eqb (filename oto) f && Qeq_bool (offset oto) o.

(** [pat] occurs in [s]. *)
Definition Contains (pat s : string) : Prop :=
  exists pre post : string, s = (pre ++ pat ++ post)%string.

(** A continuous alias: it has the separator and none of the four
    markers. *)
Definition continuous_alias (oto : Oto) : Prop :=
  Contains " " (alias oto) /\
  ~ Contains " R" (alias oto) /\
  ~ Contains " -" (alias oto) /\
  ~ Contains "息" (alias oto) /\
  ~ Contains " を" (alias oto).

(** [l'] is [l] with exactly the elements satisfying [P] kept, in the order
    they have in [l]. *)
Inductive Kept {A : Type} (P : A -> Prop) : list A -> list A -> Prop :=
| Kept_nil : Kept P [] []
| Kept_keep (a : A) (l l' : list A) :
    P a -> Kept P l l' -> Kept P (a :: l) (a :: l')
| Kept_drop (a : A) (l l' : list A) :
    ~ P a -> Kept P l l' -> Kept P (a :: l) l'.

(** The records [main] analyses: sorted, then filtered. *)
Definition analysed (otoini : OtoIni) : OtoIni :=
  snd (remove_cv_and_rest (set_data otoini (sorted_otoini otoini))).

(** Collaborators for the runs below: the path is a file, and loading it
    gives [otoini]. *)
Definition is_file : string -> bool := fun _ => false.

Definition loads (otoini : OtoIni) : string -> result OtoIni :=
  fun _ => Ok otoini.

(** A file with a single-vowel record next to three continuous aliases. *)
Definition sample_otoini : OtoIni :=
  {| data := [ rec "a.wav" "a s" 1400 100; rec "a.wav" "a" 400 100;
               rec "a.wav" "a t" 1900 100; rec "a.wav" "a k" 900 100 ] |}.

(** A file without records, and one with a record that has no filename. *)
Definition empty_otoini : OtoIni := {| data := [] |}.

Definition nameless_otoini : OtoIni :=
  {| data := [ rec "a.wav" "a k" 900 100; rec "" "a s" 1400 100 ] |}.

(** A grouping into maximal runs: every group is non-empty and holds the
    records of the file of its first record, and neighbouring groups are of
    different files. *)
Definition maximal_runs (list_oto_2d : list (list Oto)) : Prop :=
  Forall (fun g => g <> [] /\ group_of (group_file g) g) list_oto_2d /\
  Sorted (fun a b => a <> b) (map group_file list_oto_2d).

(** The group has a record. *)
Definition has_record (g : list Oto) : bool :=
  match g with
  | [] => false
  | _ :: _ => true
  end.


(** The computation leaves the file [name] as it was. *)
Definition preserves {A : Type} (name : string) (m : M A) : Prop :=
  forall w, snd (m w) name = w name.


(** ** The program in binary64

    The same functions with the numbers the program has: IEEE binary64
    floats ([PrimFloat]), every sum, difference, product and quotient
    rounded as Python rounds it, [<] and [==] as on floats.  The statements
    about what the estimates and the checks compute are made on this
    embedding.

    [sorted] is modelled by a stable insertion sort, which is what any
    stable sort returns when the keys are totally ordered; Python's result
    on keys that contain NaN depends on its algorithm and is not
    modelled. *)

Module B64.

Import PrimFloat FloatOps SpecFloat.

Local Open Scope float_scope.

Record Oto : Type := mkOto {
  filename : string;
  alias : string;
  offset : float;
  overlap : float;
  preutterance : float;
  consonant : float;
  cutoff : float
}.

Record OtoIni : Type := mkOtoIni { data : list Oto }.

Definition set_data (otoini : OtoIni) (l : list Oto) : OtoIni :=
  {| data := l |}.

(** [statistics.median] on floats. *)
Definition median (data : list float) : result float :=
  let data := sorted ltb data in
  let n := List.length data in
  if Nat.eqb n 0 then Raise (StatisticsError "no median for empty data")
  else if Nat.odd n then Ok (nth (n / 2) data 0)
  else let i := (n / 2)%nat in
       Ok ((nth (i - 1) data 0 + nth i data 0) / 2).

(** [int(x)] on a float: truncation towards zero; infinities and NaN have
    no integer. *)
Definition int (x : float) : result Z :=
  match Prim2SF x with
  | S754_zero _ => Ok 0%Z
  | S754_infinity _ =>
      Raise (OverflowError "cannot convert float infinity to integer")
  | S754_nan => Raise (ValueError "cannot convert float NaN to integer")
  | S754_finite s m e =>
      let v := (if 0 <=? e then Zpos m * 2 ^ e
                else Z.quot (Zpos m) (2 ^ (- e)))%Z in
      Ok (if s then (- v)%Z else v)
  end.

Definition remove_cv_and_rest (otoini : OtoIni) : unit * OtoIni :=
  (tt, set_data otoini
         (filter (fun oto => forallb (fun b => b)
                    [ contains " " (alias oto);
                      negb (contains " R" (alias oto));
                      negb (contains " -" (alias oto));
                      negb (contains "息" (alias oto));
                      negb (contains " を" (alias oto)) ])
                 (data otoini))).

Definition attrgetter_filename_offset (oto : Oto) : string * float :=
  (filename oto, offset oto).

Definition tuple_lt (a b : string * float) : bool :=
  if negb (String.eqb (fst a) (fst b)) then String.ltb (fst a) (fst b)
  else if negb (snd a =? snd b) then snd a <? snd b
  else false.

Definition key_lt (a b : Oto) : bool :=
  tuple_lt (attrgetter_filename_offset a) (attrgetter_filename_offset b).

Definition sorted_otoini (otoini : OtoIni) : list Oto :=
  let sorted_otoini_obj := sorted key_lt (data otoini) in
  sorted_otoini_obj.

Fixpoint first_preutterances (list_oto_2d : list (list Oto))
    : result (list float) :=
  match list_oto_2d with
  | [] => Ok []
  | l_oto :: rest =>
      first <- index l_oto 0 ;;
      tl <- first_preutterances rest ;;
      Ok ((offset first + preutterance first) :: tl)
  end.

Definition median_of_first_preutterance (list_oto_2d : list (list Oto))
    : result float :=
  data <- first_preutterances list_oto_2d ;;
  median_start <- median data ;;
  Ok median_start.

Fixpoint ms_per_beat_inner (l_oto : list Oto) (it : list (nat * Oto))
    (l_times : list float) : result (list float) :=
  match it with
  | [] => Ok l_times
  | (i, oto) :: it' =>
      let current_start_time := offset oto + preutterance oto in
      prev <- index l_oto (i - 1) ;;
      let previous_start_time := offset prev + preutterance prev in
      let duration := current_start_time - previous_start_time in
      if negb (duration =? 0)
      then ms_per_beat_inner l_oto it' (l_times ++ [duration])
      else ms_per_beat_inner l_oto it' l_times
  end.

Fixpoint ms_per_beat_outer (list_oto_2d : list (list Oto))
    (l_times : list float) : result (list float) :=
  match list_oto_2d with
  | [] => Ok l_times
  | l_oto :: rest =>
      l_times <- ms_per_beat_inner l_oto (enumerate (tl l_oto) 1) l_times ;;
      ms_per_beat_outer rest l_times
  end.

Definition median_of_ms_per_beat (list_oto_2d : list (list Oto))
    : result float :=
  l_times <- ms_per_beat_outer list_oto_2d [] ;;
  median l_times.

Fixpoint append_to_l (l_2d : list (list Oto)) (oto : Oto) : list (list Oto) :=
  match l_2d with
  | [] => []
  | [l] => [l ++ [oto]]
  | g :: rest => g :: append_to_l rest oto
  end.

Fixpoint otoini_2d_loop (it : list Oto) (l_2d : list (list Oto))
    (fname : string) (l_bound : bool) : result (list (list Oto)) :=
  match it with
  | [] => Ok l_2d
  | oto :: it' =>
      let '(l_2d, fname, l_bound) :=
        if negb (String.eqb fname (filename oto))
        then (l_2d ++ [[]], filename oto, true)
        else (l_2d, fname, l_bound) in
      if l_bound
      then otoini_2d_loop it' (append_to_l l_2d oto) fname l_bound
      else Raise (UnboundLocalError "l")
  end.

Definition otoini_2d (otoini : OtoIni) : result (list (list Oto)) :=
  otoini_2d_loop (data otoini) [] "" false.

Fixpoint detect_bad_wavfiles_loop (list_oto_2d : list (list Oto))
    (t_floor t_ceil : float) (bad_start_filenames : list string)
    : result (list string) :=
  match list_oto_2d with
  | [] => Ok bad_start_filenames
  | l_oto :: rest =>
      first_oto <- index l_oto 0 ;;
      let t := offset first_oto + preutterance first_oto in
      if negb ((t_floor <? t) && (t <? t_ceil))
      then detect_bad_wavfiles_loop rest t_floor t_ceil
             (bad_start_filenames ++ [filename first_oto])
      else detect_bad_wavfiles_loop rest t_floor t_ceil bad_start_filenames
  end.

Definition detect_bad_wavfiles (list_oto_2d : list (list Oto))
    (ms_per_beat median_start threshold : float) : result (list string) :=
  let t_floor := median_start - ms_per_beat * threshold in
  let t_ceil := median_start + ms_per_beat * threshold in
  detect_bad_wavfiles_loop list_oto_2d t_floor t_ceil [].

Fixpoint detect_bad_aliases_inner (l_oto : list Oto) (it : list (nat * Oto))
    (ms_per_beat threshold : float) (bad_alias_wavfiles : list string)
    : result (list string) :=
  match it with
  | [] => Ok bad_alias_wavfiles
  | (i, oto) :: it' =>
      let t_floor := ms_per_beat * (1 - threshold) in
      let t_ceil := ms_per_beat * (1 + threshold) in
      let current_start_time := offset oto + preutterance oto in
      prev <- index l_oto (i - 1) ;;
      let previous_start_time := offset prev + preutterance prev in
      let relative_position := current_start_time - previous_start_time in
      if relative_position =? 0
      then detect_bad_aliases_inner l_oto it' ms_per_beat threshold
             bad_alias_wavfiles
      else if negb ((t_floor <? relative_position)
                    && (relative_position <? t_ceil))
      then Ok (bad_alias_wavfiles ++ [filename oto])
      else detect_bad_aliases_inner l_oto it' ms_per_beat threshold
             bad_alias_wavfiles
  end.

Fixpoint detect_bad_aliases_outer (list_oto_2d : list (list Oto))
    (ms_per_beat threshold : float) (bad_alias_wavfiles : list string)
    : result (list string) :=
  match list_oto_2d with
  | [] => Ok bad_alias_wavfiles
  | l_oto :: rest =>
      bad <- detect_bad_aliases_inner l_oto (enumerate (tl l_oto) 1)
               ms_per_beat threshold bad_alias_wavfiles ;;
      detect_bad_aliases_outer rest ms_per_beat threshold bad
  end.

Definition detect_bad_aliases (list_oto_2d : list (list Oto))
    (ms_per_beat threshold : float) : result (list string) :=
  detect_bad_aliases_outer list_oto_2d ms_per_beat threshold [].

(** Files and the run. *)

Inductive file : Type :=
| OtoFile (records : list Oto)
| TextFile (text : string).

Definition World : Type := string -> option file.

Definition no_files : World := fun _ => None.

Definition write (w : World) (name : string) (f : file) : World :=
  fun n => if String.eqb n name then Some f else w n.

Definition M (A : Type) : Type := World -> result A * World.

Definition ret {A : Type} (a : A) : M A := fun w => (Ok a, w).

Definition bindM {A B : Type} (c : M A) (k : A -> M B) : M B :=
  fun w => match c w with
           | (Ok a, w') => k a w'
           | (Raise e, w') => (Raise e, w')
           end.

Definition lift {A : Type} (r : result A) : M A := fun w => (r, w).

Definition write_file (name : string) (f : file) : M unit :=
  fun w => (Ok tt, write w name f).

Notation "x <~~ c1 ;; c2" := (bindM c1 (fun x => c2))
  (at level 61, c1 at next level, right associativity).

Local Open Scope string_scope.

Definition report_block (heading : string) (l_2d : list (list Oto))
    (ms_per_beat median_start threshold : float) : result string :=
  let s := heading ++ "------------------" ++ nl in
  let s := s ++ "1拍めがずれてそう------------------" ++ nl in
  bad <- detect_bad_wavfiles l_2d ms_per_beat median_start threshold ;;
  let s := s ++ join nl bad ++ nl in
  let s := s ++ "2拍め以降がずれてそう--------------" ++ nl in
  bad <- detect_bad_aliases l_2d ms_per_beat threshold ;;
  Ok (s ++ join nl bad ++ nl ++ nl).

Section Main.

Variable isdir : string -> bool.
Variable exists_ : string -> bool.
Variable load : string -> result OtoIni.

(** [main]; each [int(...)] inside an f-string is evaluated where the
    string is built. *)
Definition main (path : string) : M unit :=
  let path := strip dquote path in
  path_otoini <~~
    (if isdir path
     then let path_otoini := path ++ "/oto.ini" in
          if exists_ path_otoini then ret path_otoini
          else lift (Raise (AssertionError
                 "指定されたフォルダにoto.iniファイルがありません。"))
     else ret path) ;;
  let s := "" in
  otoini <~~ lift (load path_otoini) ;;
  let otoini := set_data otoini (sorted_otoini otoini) in
  _ <~~ write_file "sorted_otoini.txt" (OtoFile (data otoini)) ;;
  let s := s ++ "全エイリアス数: " ++ str_len (data otoini) ++ nl in
  let '(_, otoini) := remove_cv_and_rest otoini in
  let s := s ++ "連続音かつ非語尾エイリアス数: " ++ str_len (data otoini) ++ nl in
  l_2d <~~ lift (otoini_2d otoini) ;;
  let s := s ++ "音声ファイル数: " ++ str_len l_2d ++ nl in
  median_start <~~ lift (median_of_first_preutterance l_2d) ;;
  i <~~ lift (int median_start) ;;
  let s := s ++ "最初のエイリアスの発声時刻の中央値 (ms): "
             ++ str_of_int i ++ nl in
  ms_per_beat <~~ lift (median_of_ms_per_beat l_2d) ;;
  i <~~ lift (int ms_per_beat) ;;
  let s := s ++ "1拍当たりの時間の中央値 (ms): " ++ str_of_int i ++ nl in
  i <~~ lift (int ms_per_beat) ;;
  let s := s ++ "median of time per beat (ms): " ++ str_of_int i ++ nl in
  let s := s ++ nl ++ nl in
  b <~~ lift (report_block "原音設定ミスの疑いがあるwavファイル名(明らかにずれてる)"
               l_2d ms_per_beat median_start 0.9%float) ;;
  let s := s ++ b in
  b <~~ lift (report_block "原音設定ミスの疑いがあるwavファイル名(緩く検出)"
               l_2d ms_per_beat median_start 0.3%float) ;;
  let s := s ++ b in
  b <~~ lift (report_block "原音設定ミスの疑いがあるwavファイル名(そこそこ検出)"
               l_2d ms_per_beat median_start 0.25%float) ;;
  let s := s ++ b in
  b <~~ lift (report_block "原音設定ミスの疑いがあるwavファイル名(厳しめに検出)"
               l_2d ms_per_beat median_start 0.2%float) ;;
  let s := s ++ b in
  write_file "result.txt" (TextFile s).

Definition path_otoini_of (path : string) : option string :=
  let path := strip dquote path in
  if isdir path
  then if exists_ (path ++ "/oto.ini") then Some (path ++ "/oto.ini") else None
  else Some path.

End Main.

Local Close Scope string_scope.

(** *** Notions of the specification, in binary64 *)

(** The onset time as the program computes it. *)
Definition onset_time (oto : Oto) : float := offset oto + preutterance oto.

(** The distance between two onsets as the program computes it. *)
Definition delta (prev curr : Oto) : float :=
  onset_time curr - onset_time prev.

Definition pair_at (g : list Oto) (i : nat) (prev curr : Oto) : Prop :=
  nth_error g i = Some prev /\ nth_error g (S i) = Some curr.

(** [ms_per_beat * (1 - threshold) < d < ms_per_beat * (1 + threshold)],
    bounds and comparisons computed in binary64. *)
Definition in_band (ms_per_beat threshold d : float) : Prop :=
  (ms_per_beat * (1 - threshold) <? d) = true /\
  (d <? ms_per_beat * (1 + threshold)) = true.

(** [median_start - ms_per_beat * threshold < t
     < median_start + ms_per_beat * threshold], likewise. *)
Definition in_start_band (ms_per_beat median_start threshold t : float)
    : Prop :=
  (median_start - ms_per_beat * threshold <? t) = true /\
  (t <? median_start + ms_per_beat * threshold) = true.

(** A pair passes: its distance compares equal to zero, or is inside the
    band. *)
Definition pair_passes (ms_per_beat threshold : float) (prev curr : Oto)
    : Prop :=
  (delta prev curr =? 0) = true \/
  in_band ms_per_beat threshold (delta prev curr).

Definition alias_verdict (ms_per_beat threshold : float) (g : list Oto)
    (out : list string) : Prop :=
  (out = [] /\
   forall i prev curr, pair_at g i prev curr ->
     pair_passes ms_per_beat threshold prev curr)
  \/
  (exists i prev curr,
     pair_at g i prev curr /\
     ~ pair_passes ms_per_beat threshold prev curr /\
     (forall j p c, (j < i)%nat -> pair_at g j p c ->
        pair_passes ms_per_beat threshold p c) /\
     out = [filename curr]).

Definition start_verdict (ms_per_beat median_start threshold : float)
    (g : list Oto) (out : list string) : Prop :=
  exists first rest, g = first :: rest /\
    ((in_start_band ms_per_beat median_start threshold (onset_time first)
      /\ out = [])
     \/
     (~ in_start_band ms_per_beat median_start threshold (onset_time first)
      /\ out = [filename first])).

Definition group_of (f : string) (g : list Oto) : Prop :=
  Forall (fun oto => filename oto = f) g.

(** The scan of one group in the words of the specification. *)
Fixpoint scan (ms_per_beat threshold : float) (prev : Oto) (rest : list Oto)
    : list string :=
  match rest with
  | [] => []
  | curr :: rest' =>
      if delta prev curr =? 0
      then scan ms_per_beat threshold curr rest'
      else if (ms_per_beat * (1 - threshold) <? delta prev curr)
              && (delta prev curr <? ms_per_beat * (1 + threshold))
      then scan ms_per_beat threshold curr rest'
      else [filename curr]
  end.

Definition scan_group (ms_per_beat threshold : float) (g : list Oto)
    : list string :=
  match g with
  | [] => []
  | first :: rest => scan ms_per_beat threshold first rest
  end.

Definition first_onset_flag (ms_per_beat median_start threshold : float)
    (g : list Oto) : list string :=
  match g with
  | [] => []
  | first :: _ =>
      if (median_start - ms_per_beat * threshold <? onset_time first)
         && (onset_time first <? median_start + ms_per_beat * threshold)
      then []
      else [filename first]
  end.

(** The consecutive pairs of a group. *)
Definition pairs (g : list Oto) : list (Oto * Oto) := combine g (tl g).

(** The durations of the specification: the distances of the consecutive
    pairs, those that compare equal to zero left out. *)
Definition durations_of_group (g : list Oto) : list float :=
  filter (fun d => negb (d =? 0))
         (map (fun pc => delta (fst pc) (snd pc)) (pairs g)).

Definition durations (list_oto_2d : list (list Oto)) : list float :=
  flat_map durations_of_group list_oto_2d.


Definition analysed (otoini : OtoIni) : OtoIni :=
  snd (remove_cv_and_rest (set_data otoini (sorted_otoini otoini))).

(** The onsets of the first records of the groups. *)
Definition first_onsets (list_oto_2d : list (list Oto)) : list float :=
  flat_map (fun g => match g with
                     | [] => []
                     | first :: _ => [onset_time first]
                     end) list_oto_2d.

(** A number moved by [c]. *)
Definition add_shift (c x : float) : float := x + c.

(** Every record moved by [c] milliseconds. *)
Definition shift_offset (c : float) (oto : Oto) : Oto :=
  {| filename := filename oto; alias := alias oto;
     offset := offset oto + c; overlap := overlap oto;
     preutterance := preutterance oto; consonant := consonant oto;
     cutoff := cutoff oto |}.

Definition shift_all (c : float) (list_oto_2d : list (list Oto))
    : list (list Oto) :=
  map (map (shift_offset c)) list_oto_2d.

(** The arithmetic of a shift by [c] is exact on the dataset: adding [c]
    before or after the preutterance gives the same onset; it keeps the
    distances of consecutive records; on the first onsets it keeps the
    order and commutes with the mean of two. *)
Definition shift_exact (c : float) (list_oto_2d : list (list Oto)) : Prop :=
  (forall g oto, In g list_oto_2d -> In oto g ->
     onset_time (shift_offset c oto) = onset_time oto + c) /\
  (forall g prev curr, In g list_oto_2d -> In (prev, curr) (pairs g) ->
     (onset_time curr + c) - (onset_time prev + c)
     = onset_time curr - onset_time prev) /\
  (forall x y, In x (first_onsets list_oto_2d) ->
               In y (first_onsets list_oto_2d) ->
     (x + c <? y + c) = (x <? y) /\
     ((x + c) + (y + c)) / 2 = (x + y) / 2 + c).


(** Sample data. *)
Definition rec (f a : string) (off pre : float) : Oto :=
  {| filename := f; alias := a; offset := off; overlap := 0;
     preutterance := pre; consonant := 0; cutoff := 0 |}.

Definition sample_groups : list (list Oto) :=
  [ [ rec "a.wav" "a k" 900 100; rec "a.wav" "a s" 1400 100;
      rec "a.wav" "a t" 1900 100 ];
    [ rec "b.wav" "i k" 900 100; rec "b.wav" "i s" 1400 100;
      rec "b.wav" "i t" 2400 100 ] ].

Definition is_file : string -> bool := fun _ => false.

Definition loads (otoini : OtoIni) : string -> result OtoIni :=
  fun _ => Ok otoini.

Definition empty_otoini : OtoIni := {| data := [] |}.

(** Two records one millisecond apart, before and after a shift by 2^53. *)
Definition near_pair : list (list Oto) :=
  [ [ rec "a.wav" "a k" 0 1; rec "a.wav" "a s" 2 0 ] ].

End B64.

(** ** Properties *)

Lemma Qltb_lt (a b : Q) : Qltb a b = true <-> a < b.
Proof.
  unfold Qltb. rewrite negb_true_iff. split; intro H.
  - apply Qnot_le_lt. intro Hle. apply Qle_bool_iff in Hle. congruence.
  - destruct (Qle_bool b a) eqn:E; [|reflexivity].
    apply Qle_bool_iff in E. lra.
Qed.

Lemma Qltb_nlt (a b : Q) : Qltb a b = false <-> ~ a < b.
Proof.
  rewrite <- Qltb_lt. destruct (Qltb a b); split; intro H;
    solve [reflexivity | discriminate | congruence | now exfalso; apply H].
Qed.


Lemma index_middle {A : Type} (front : list A) (a : A) (rest : list A) :
  index (front ++ a :: rest) (List.length front) = Ok a.
Proof.
  unfold index. rewrite nth_error_app2 by lia.
  now rewrite Nat.sub_diag.
Qed.

(** *** The inter-onset check *)

Lemma detect_bad_aliases_inner_scan (m t : Q) (rest front : list Oto)
    (prev : Oto) (bad : list string) :
  detect_bad_aliases_inner (front ++ prev :: rest)
    (enumerate rest (S (List.length front))) m t bad
  = Ok (bad ++ scan m t prev rest).
Proof.
  revert front prev bad.
  induction rest as [|curr rest IH]; intros front prev bad; simpl.
  - now rewrite app_nil_r.
  - rewrite Nat.sub_0_r, index_middle. simpl.
    fold (onset_time curr) (onset_time prev) (delta prev curr).
    assert (Hnext : forall bad',
      detect_bad_aliases_inner (front ++ prev :: curr :: rest)
        (enumerate rest (S (S (List.length front)))) m t bad'
      = Ok (bad' ++ scan m t curr rest)).
    { intro bad'.
      specialize (IH (front ++ [prev]) curr bad').
      rewrite <- app_assoc, length_app in IH. simpl in IH.
      now rewrite Nat.add_1_r in IH. }
    destruct (Qeq_bool (delta prev curr) 0); [apply Hnext|].
    destruct (Qltb (m * (1 - t)) (delta prev curr)
              && Qltb (delta prev curr) (m * (1 + t))); simpl;
      [apply Hnext|reflexivity].
Qed.

Lemma detect_bad_aliases_outer_scan (m t : Q) (groups : list (list Oto))
    (bad : list string) :
  detect_bad_aliases_outer groups m t bad
  = Ok (bad ++ flat_map (scan_group m t) groups).
Proof.
  revert bad. induction groups as [|g groups IH]; intro bad; simpl.
  - now rewrite app_nil_r.
  - destruct g as [|first rest]; simpl.
    + apply IH.
    + pose proof (detect_bad_aliases_inner_scan m t rest [] first bad) as H.
      simpl in H. rewrite H. simpl.
      now rewrite IH, app_assoc.
Qed.

Lemma scan_group_file (m t : Q) (f : string) (g : list Oto) :
  group_of f g -> scan_group m t g = [] \/ scan_group m t g = [f].
Proof.
  destruct g as [|first rest]; [now left|]. simpl.
  intro H. apply Forall_inv_tail in H. revert first.
  induction rest as [|curr rest IH]; intro first; simpl; [now left|].
  pose proof (Forall_inv H) as Hc. apply Forall_inv_tail in H.
  destruct (Qeq_bool (delta first curr) 0); [now apply IH|].
  destruct (_ && _); [now apply IH|].
  right. simpl in Hc. now rewrite Hc.
Qed.

(** *** The first-onset check *)


Lemma detect_bad_wavfiles_loop_flags (ms m t : Q) (groups : list (list Oto))
    (bad : list string) :
  Forall (fun g => g <> []) groups ->
  detect_bad_wavfiles_loop groups (m - ms * t) (m + ms * t) bad
  = Ok (bad ++ flat_map (first_onset_flag ms m t) groups).
Proof.
  intro H. revert bad. induction H as [|g groups Hg _ IH]; intro bad; simpl.
  - now rewrite app_nil_r.
  - destruct g as [|first rest]; [congruence|]. simpl.
    fold (onset_time first).
    destruct (Qltb (m - ms * t) (onset_time first)
              && Qltb (onset_time first) (m + ms * t)); simpl.
    + apply IH.
    + now rewrite IH, <- app_assoc.
Qed.

(** *** Thresholds *)









(** *** Tempo estimation *)

Lemma durations_of_group_cons (a b : Oto) (rest : list Oto) :
  durations_of_group (a :: b :: rest)
  = (if negb (Qeq_bool (delta a b) 0) then [delta a b] else [])
    ++ durations_of_group (b :: rest).
Proof.
  unfold durations_of_group. simpl.
  now destruct (negb (Qeq_bool (delta a b) 0)).
Qed.

Lemma ms_per_beat_inner_durations (rest front : list Oto) (prev : Oto)
    (l_times : list Q) :
  ms_per_beat_inner (front ++ prev :: rest)
    (enumerate rest (S (List.length front))) l_times
  = Ok (l_times ++ durations_of_group (prev :: rest)).
Proof.
  revert front prev l_times.
  induction rest as [|curr rest IH]; intros front prev l_times.
  - simpl. now rewrite app_nil_r.
  - rewrite durations_of_group_cons. simpl.
    rewrite Nat.sub_0_r, index_middle. simpl.
    fold (onset_time curr) (onset_time prev) (delta prev curr).
    assert (Hnext : forall l_times',
      ms_per_beat_inner (front ++ prev :: curr :: rest)
        (enumerate rest (S (S (List.length front)))) l_times'
      = Ok (l_times' ++ durations_of_group (curr :: rest))).
    { intro l_times'.
      specialize (IH (front ++ [prev]) curr l_times').
      rewrite <- app_assoc, length_app in IH. simpl in IH.
      now rewrite Nat.add_1_r in IH. }
    destruct (negb (Qeq_bool (delta prev curr) 0)); rewrite Hnext.
    + now rewrite <- app_assoc.
    + reflexivity.
Qed.

Lemma ms_per_beat_outer_durations (groups : list (list Oto)) (l_times : list Q) :
  ms_per_beat_outer groups l_times = Ok (l_times ++ durations groups).
Proof.
  revert l_times. induction groups as [|g groups IH]; intro l_times; simpl.
  - now rewrite app_nil_r.
  - destruct g as [|first rest]; simpl.
    + apply IH.
    + pose proof (ms_per_beat_inner_durations rest [] first l_times) as H.
      simpl in H. rewrite H. simpl.
      now rewrite IH, app_assoc.
Qed.

Lemma median_of_ms_per_beat_eq (groups : list (list Oto)) :
  median_of_ms_per_beat groups = median (durations groups).
Proof.
  unfold median_of_ms_per_beat. now rewrite ms_per_beat_outer_durations.
Qed.

(** *** Medians under a shift *)

Section MedianShift.

Variable c : Q.






End MedianShift.

(** *** Grouping *)

Lemma append_to_l_last (init : list (list Oto)) (l : list Oto) (oto : Oto) :
  append_to_l (init ++ [l]) oto = init ++ [l ++ [oto]].
Proof.
  induction init as [|g init IH]; simpl; [reflexivity|].
  rewrite IH. destruct (init ++ [l]) eqn:E; [|reflexivity].
  now destruct init.
Qed.

Lemma otoini_2d_loop_runs (it : list Oto) (init : list (list Oto))
    (cur : list Oto) (f : string) :
  otoini_2d_loop it (init ++ [cur]) f true = Ok (init ++ runs f cur it).
Proof.
  revert init cur f. induction it as [|oto it IH]; intros init cur f; simpl.
  - reflexivity.
  - destruct (String.eqb f (filename oto)); simpl.
    + rewrite append_to_l_last. apply IH.
    + rewrite append_to_l_last. simpl.
      rewrite (IH (init ++ [cur]) [oto] (filename oto)).
      now rewrite <- app_assoc.
Qed.

Lemma otoini_2d_nonempty_name (first : Oto) (rest : list Oto) :
  filename first <> EmptyString ->
  otoini_2d {| data := first :: rest |} = Ok (group_runs (first :: rest)).
Proof.
  intro H. unfold otoini_2d. cbn [data otoini_2d_loop].
  destruct (String.eqb_spec EmptyString (filename first)) as [E|_]; [congruence|].
  cbn [negb app append_to_l]. apply (otoini_2d_loop_runs rest [] [first]).
Qed.

Lemma otoini_2d_empty_name (first : Oto) (rest : list Oto) :
  filename first = EmptyString ->
  otoini_2d {| data := first :: rest |} = Raise (UnboundLocalError "l").
Proof. intro H. unfold otoini_2d. cbn [data otoini_2d_loop]. now rewrite H. Qed.

Lemma runs_concat (it : list Oto) (f : string) (cur : list Oto) :
  List.concat (runs f cur it) = cur ++ it.
Proof.
  revert f cur. induction it as [|oto it IH]; intros f cur; simpl.
  - now rewrite app_nil_r.
  - destruct (String.eqb f (filename oto)); simpl; rewrite IH.
    + now rewrite <- app_assoc.
    + reflexivity.
Qed.

Lemma runs_groups (it : list Oto) (f : string) (cur : list Oto) :
  cur <> [] -> group_of f cur ->
  Forall (fun g => g <> [] /\ group_of (group_file g) g) (runs f cur it) /\
  group_file (hd [] (runs f cur it)) = f.
Proof.
  revert f cur. induction it as [|oto it IH]; intros f cur Hne Hf.
  - simpl. destruct cur as [|a cur]; [congruence|].
    pose proof (Forall_inv Hf) as Ha. simpl in Ha. simpl.
    split; [|exact Ha]. constructor; [|constructor].
    split; [discriminate|]. simpl. now rewrite Ha.
  - simpl. destruct (String.eqb_spec f (filename oto)) as [E|E].
    + apply IH.
      * now destruct cur.
      * apply Forall_app. split; [exact Hf|]. now repeat constructor.
    + destruct (IH (filename oto) [oto]) as [Hall _];
        [discriminate|now repeat constructor|].
      destruct cur as [|a cur]; [congruence|].
      pose proof (Forall_inv Hf) as Ha. simpl in Ha. simpl.
      split; [|exact Ha]. constructor; [|exact Hall].
      split; [discriminate|]. simpl. now rewrite Ha.
Qed.

Lemma runs_adjacent (it : list Oto) (f : string) (cur : list Oto) :
  cur <> [] -> group_of f cur ->
  Sorted (fun a b => a <> b) (map group_file (runs f cur it)).
Proof.
  revert f cur. induction it as [|oto it IH]; intros f cur Hne Hf; simpl.
  - repeat constructor.
  - destruct (String.eqb_spec f (filename oto)) as [E|E].
    + apply IH.
      * now destruct cur.
      * apply Forall_app. split; [exact Hf|]. now repeat constructor.
    + simpl. constructor.
      * apply IH; [discriminate|now repeat constructor].
      * destruct (runs_groups it (filename oto) [oto]) as [_ Hhd];
          [discriminate|now repeat constructor|].
        destruct (runs (filename oto) [oto] it) as [|g gs]; simpl in *;
          constructor.
        rewrite Hhd. destruct cur as [|a cur]; [congruence|].
        pose proof (Forall_inv Hf) as Ha. simpl in *. congruence.
Qed.

Lemma group_runs_nonempty (l : list Oto) :
  Forall (fun g => g <> []) (group_runs l).
Proof.
  destruct l as [|first rest]; [constructor|].
  destruct (runs_groups rest (filename first) [first]) as [Hall _];
    [discriminate|now repeat constructor|].
  simpl. eapply Forall_impl; [|exact Hall]. simpl. tauto.
Qed.

(** C10. [otoini_2d] starts with the empty string as the filename seen
    last.  On a non-empty input whose first record has a non-empty filename
    it returns a grouping, every group of which is non-empty; on an input
    whose first record has the empty filename the list [l] is not yet bound
    when it is appended to, and the call raises. *)
Theorem otoini_2d_sentinel (first : Oto) (rest : list Oto) :
  (filename first <> EmptyString ->
   exists l_2d, otoini_2d {| data := first :: rest |} = Ok l_2d /\
                Forall (fun g => g <> []) l_2d) /\
  (filename first = EmptyString ->
   otoini_2d {| data := first :: rest |} = Raise (UnboundLocalError "l")).
Proof.
  split; [|apply otoini_2d_empty_name].
  intro H. exists (group_runs (first :: rest)).
  split; [now apply otoini_2d_nonempty_name|apply group_runs_nonempty].
Qed.

(** *** Sorting *)

Lemma str_lt_trans (a b c : string) : str_lt a b -> str_lt b c -> str_lt a c.
Proof.
  unfold str_lt, String.ltb. intros Hab Hbc.
  destruct (String.compare a b) eqn:Eab; try discriminate.
  destruct (String.compare b c) eqn:Ebc; try discriminate.
  apply String_as_OT.cmp_lt in Eab, Ebc.
  pose proof (String_as_OT.lt_trans _ _ _ Eab Ebc) as Hac.
  apply String_as_OT.cmp_lt in Hac. unfold String_as_OT.cmp in Hac.
  now rewrite Hac.
Qed.

Lemma str_lt_irrefl (a : string) : ~ str_lt a a.
Proof.
  unfold str_lt, String.ltb. intro H.
  destruct (String.compare a a) eqn:E; try discriminate.
  apply String_as_OT.cmp_lt in E.
  apply String_as_OT.lt_not_eq in E. apply E. reflexivity.
Qed.

Lemma str_lt_total (a b : string) :
  a <> b -> String.ltb a b = false -> str_lt b a.
Proof.
  unfold str_lt, String.ltb. intros Hne H.
  rewrite (String.compare_antisym b a).
  destruct (String.compare a b) eqn:E; try discriminate; [|reflexivity].
  apply String.compare_eq_iff in E. contradiction.
Qed.

Lemma key_lt_unfold (a b : Oto) :
  key_lt a b =
  if negb (String.eqb (filename a) (filename b))
  then String.ltb (filename a) (filename b)
  else if negb (Qeq_bool (offset a) (offset b))
       then Qltb (offset a) (offset b) else false.
Proof. reflexivity. Qed.

Lemma key_lt_true (y x : Oto) : key_lt y x = true -> key_le y x.
Proof.
  rewrite key_lt_unfold. unfold key_le.
  destruct (String.eqb_spec (filename y) (filename x)) as [E|E]; simpl.
  - destruct (negb (Qeq_bool (offset y) (offset x))); [|discriminate].
    intro H. apply Qltb_lt in H. right. split; [exact E|lra].
  - intro H. now left.
Qed.

Lemma key_lt_false (y x : Oto) : key_lt y x = false -> key_le x y.
Proof.
  rewrite key_lt_unfold. unfold key_le.
  destruct (String.eqb_spec (filename y) (filename x)) as [E|E]; simpl.
  - intro H. right. split; [now symmetry|].
    destruct (Qeq_bool (offset y) (offset x)) eqn:Eq; simpl in H.
    + apply Qeq_bool_iff in Eq. lra.
    + apply Qltb_nlt in H. lra.
  - intro H. left. now apply str_lt_total.
Qed.

Lemma key_le_trans (a b c : Oto) : key_le a b -> key_le b c -> key_le a c.
Proof.
  unfold key_le. intros [Hab|[Eab Hab]] [Hbc|[Ebc Hbc]].
  - left. eapply str_lt_trans; eassumption.
  - left. now rewrite <- Ebc.
  - left. now rewrite Eab.
  - right. split; [congruence|lra].
Qed.

Lemma key_lt_same_key (f : string) (o : Q) (y x : Oto) :
  key_lt y x = true -> same_key f o x = true -> same_key f o y = false.
Proof.
  rewrite key_lt_unfold. unfold same_key. intros Hlt Hx.
  apply andb_true_iff in Hx as [Hf Ho].
  apply String.eqb_eq in Hf. apply Qeq_bool_iff in Ho.
  destruct (String.eqb_spec (filename y) f) as [E|E]; [|reflexivity]. simpl.
  destruct (Qeq_bool (offset y) o) eqn:Ey; [|reflexivity].
  apply Qeq_bool_iff in Ey. exfalso.
  rewrite E, Hf, String.eqb_refl in Hlt. simpl in Hlt.
  destruct (Qeq_bool (offset y) (offset x)) eqn:Eyx; simpl in Hlt;
    [discriminate|].
  apply Qltb_lt in Hlt. lra.
Qed.

Lemma insert_perm (x : Oto) (s : list Oto) :
  Permutation (insert key_lt x s) (x :: s).
Proof.
  induction s as [|y s IH]; simpl; [reflexivity|].
  destruct (key_lt y x); [|reflexivity].
  rewrite IH. apply perm_swap.
Qed.

Lemma sorted_perm (l : list Oto) : Permutation (sorted key_lt l) l.
Proof.
  induction l as [|x l IH]; simpl; [reflexivity|].
  rewrite insert_perm. now constructor.
Qed.

Lemma insert_sorted (x : Oto) (s : list Oto) :
  StronglySorted key_le s -> StronglySorted key_le (insert key_lt x s).
Proof.
  induction 1 as [|y s Hs IH Hy]; simpl.
  - repeat constructor.
  - destruct (key_lt y x) eqn:E.
    + constructor; [exact IH|].
      eapply Permutation_Forall; [symmetry; apply insert_perm|].
      constructor; [now apply key_lt_true|exact Hy].
    + apply key_lt_false in E. constructor.
      * now constructor.
      * constructor; [exact E|].
        eapply Forall_impl; [|exact Hy].
        intros z Hz. eapply key_le_trans; eassumption.
Qed.

Lemma sorted_sorted (l : list Oto) : StronglySorted key_le (sorted key_lt l).
Proof.
  induction l; simpl; [constructor|now apply insert_sorted].
Qed.

Lemma insert_stable (f : string) (o : Q) (x : Oto) (s : list Oto) :
  filter (same_key f o) (insert key_lt x s) = filter (same_key f o) (x :: s).
Proof.
  induction s as [|y s IH]; [reflexivity|].
  cbn [insert]. destruct (key_lt y x) eqn:E; [|reflexivity].
  cbn [filter] in *. rewrite IH.
  destruct (same_key f o x) eqn:Ex; [|reflexivity].
  now rewrite (key_lt_same_key f o y x E Ex).
Qed.

Lemma sorted_stable (f : string) (o : Q) (l : list Oto) :
  filter (same_key f o) (sorted key_lt l) = filter (same_key f o) l.
Proof.
  induction l as [|x l IH]; [reflexivity|].
  cbn [sorted]. rewrite insert_stable. cbn [filter]. now rewrite IH.
Qed.

(** [sorted_otoini] returns the records ordered by filename, then by
    offset; records with the same filename and equal offsets keep the order
    they had. *)
Lemma sorted_otoini_stable_sort (otoini : OtoIni) :
  Permutation (sorted_otoini otoini) (data otoini) /\
  StronglySorted key_le (sorted_otoini otoini) /\
  (forall f o, filter (same_key f o) (sorted_otoini otoini)
               = filter (same_key f o) (data otoini)).
Proof.
  unfold sorted_otoini. split; [apply sorted_perm|].
  split; [apply sorted_sorted|]. intros f o. apply sorted_stable.
Qed.

(** *** Grouping a sorted sequence *)

Lemma StronglySorted_app_inv {A : Type} (R : A -> A -> Prop) (l1 l2 : list A) :
  StronglySorted R (l1 ++ l2) ->
  StronglySorted R l1 /\ StronglySorted R l2 /\
  (forall a b, In a l1 -> In b l2 -> R a b).
Proof.
  induction l1 as [|x l1 IH]; simpl; intro H.
  - repeat split; [constructor|exact H|tauto].
  - apply StronglySorted_inv in H as [Hs Hx].
    destruct (IH Hs) as (H1 & H2 & H12).
    apply Forall_app in Hx as [Hx1 Hx2].
    repeat split; [now constructor|exact H2|].
    intros a b [<-|Ha] Hb; [|now apply H12].
    rewrite Forall_forall in Hx2. now apply Hx2.
Qed.

Lemma group_offsets_sorted (f : string) (g : list Oto) :
  group_of f g -> StronglySorted key_le g -> StronglySorted offset_le g.
Proof.
  intros Hf Hs. induction Hs as [|a g Hs IH Ha]; constructor.
  - apply IH. now apply Forall_inv_tail in Hf.
  - pose proof (Forall_inv Hf) as Hfa. apply Forall_inv_tail in Hf.
    rewrite Forall_forall in *. intros b Hb.
    destruct (Ha b Hb) as [Hlt|[_ Hle]]; [|exact Hle].
    exfalso. simpl in Hfa. rewrite Hfa, (Hf b Hb) in Hlt.
    now apply str_lt_irrefl in Hlt.
Qed.

Lemma groups_offsets_sorted (groups : list (list Oto)) :
  Forall (fun g => g <> [] /\ group_of (group_file g) g) groups ->
  StronglySorted key_le (List.concat groups) ->
  Forall (StronglySorted offset_le) groups.
Proof.
  induction 1 as [|g groups [_ Hg] _ IH]; simpl; intro Hs; constructor.
  - apply StronglySorted_app_inv in Hs as (Hs & _ & _).
    eapply group_offsets_sorted; eassumption.
  - apply IH. now apply StronglySorted_app_inv in Hs as (_ & Hs & _).
Qed.

Lemma group_files_ascending (groups : list (list Oto)) :
  Forall (fun g => g <> [] /\ group_of (group_file g) g) groups ->
  Sorted (fun a b => a <> b) (map group_file groups) ->
  StronglySorted key_le (List.concat groups) ->
  StronglySorted str_lt (map group_file groups).
Proof.
  intros Hall Hadj Hs. apply Sorted_StronglySorted.
  { intros a b c. apply str_lt_trans. }
  induction Hall as [|g groups [Hne _] Hall IH]; simpl in *; [constructor|].
  apply Sorted_inv in Hadj as [Hadj Hhd].
  apply StronglySorted_app_inv in Hs as (_ & Hs & H12).
  constructor; [now apply IH|].
  destruct groups as [|g' groups]; simpl in *; constructor.
  apply HdRel_inv in Hhd.
  destruct g as [|a g]; [congruence|].
  apply Forall_inv in Hall as [Hne' _].
  destruct g' as [|b g']; [congruence|]. simpl in *.
  destruct (H12 a b) as [Hlt|[E _]];
    [now left|now left|exact Hlt|contradiction].
Qed.

(** X7. On records that all carry a non-empty filename, sorting and then
    grouping returns groups whose concatenation is the sorted sequence;
    each group is non-empty, holds the records of one wav file and is
    ordered by offset; the files of the groups are strictly ascending, so
    no file has two groups. *)
Lemma sort_then_group (otoini : OtoIni) :
  Forall (fun oto => filename oto <> EmptyString) (data otoini) ->
  exists l_2d,
    otoini_2d (set_data otoini (sorted_otoini otoini)) = Ok l_2d /\
    List.concat l_2d = sorted_otoini otoini /\
    Forall (fun g => g <> [] /\ group_of (group_file g) g /\
                     StronglySorted offset_le g) l_2d /\
    StronglySorted str_lt (map group_file l_2d).
Proof.
  intro Hne.
  destruct (sorted_otoini_stable_sort otoini) as (Hperm & Hsorted & _).
  assert (Hne' : Forall (fun oto => filename oto <> EmptyString)
                        (sorted_otoini otoini)).
  { eapply Permutation_Forall; [symmetry; exact Hperm|exact Hne]. }
  unfold set_data.
  destruct (sorted_otoini otoini) as [|first rest] eqn:Es.
  - exists []. repeat split; constructor.
  - exists (group_runs (first :: rest)).
    assert (Hc : List.concat (group_runs (first :: rest)) = first :: rest).
    { apply (runs_concat rest (filename first) [first]). }
    destruct (runs_groups rest (filename first) [first]) as [Hall _];
      [discriminate|now repeat constructor|].
    pose proof (runs_adjacent rest (filename first) [first]
                  ltac:(discriminate) ltac:(now repeat constructor)) as Hadj.
    change (runs (filename first) [first] rest)
      with (group_runs (first :: rest)) in Hall, Hadj.
    rewrite <- Hc in Hsorted.
    split; [apply otoini_2d_nonempty_name; now apply Forall_inv in Hne'|].
    split; [exact Hc|]. split.
    + pose proof (groups_offsets_sorted _ Hall Hsorted) as Hoff.
      rewrite Forall_forall in *. intros g Hg.
      destruct (Hall g Hg). auto.
    + now apply group_files_ascending.
Qed.

(** C6. Sorting and then grouping two records, one of which has the empty
    filename: the sort brings that record to the front, and [otoini_2d]
    raises instead of returning groups. *)
Theorem sort_then_group_nameless :
  sorted_otoini nameless_otoini
    = [ rec "" "a s" 1400 100; rec "a.wav" "a k" 900 100 ] /\
  otoini_2d (set_data nameless_otoini (sorted_otoini nameless_otoini))
    = Raise (UnboundLocalError "l").
Proof. split; reflexivity. Qed.

(** *** The record filter *)

Lemma prefix_app (pat s : string) :
  String.prefix pat s = true <-> exists post, s = (pat ++ post)%string.
Proof.
  revert s. induction pat as [|a pat IH]; intro s.
  - split; [|now destruct s]. intros _. now exists s.
  - destruct s as [|b s]; simpl.
    + split; [discriminate|]. intros [post H]. discriminate.
    + destruct (ascii_dec a b) as [->|Hne].
      * rewrite IH. split; intros [post H]; exists post.
        -- now rewrite H.
        -- now inversion H.
      * split; [discriminate|]. intros [post H]. inversion H. congruence.
Qed.

Lemma contains_Contains (pat s : string) :
  contains pat s = true <-> Contains pat s.
Proof.
  unfold Contains. split.
  - induction s as [|a s IH]; cbn [contains].
    + destruct (String.prefix pat EmptyString) eqn:E;
        [|intro H; discriminate H].
      intros _. apply prefix_app in E as [post E].
      now exists EmptyString, post.
    + destruct (String.prefix pat (String a s)) eqn:E.
      * intros _. apply prefix_app in E as [post E].
        now exists EmptyString, post.
      * intro H. destruct (IH H) as (pre & post & ->).
        now exists (String a pre), post.
  - intros (pre & post & ->). induction pre as [|a pre IH].
    + assert (E : String.prefix pat (pat ++ post) = true)
        by (apply prefix_app; now exists post).
      change (EmptyString ++ pat ++ post)%string with (pat ++ post)%string.
      destruct (pat ++ post)%string; cbn [contains]; now rewrite E.
    + change (String a pre ++ pat ++ post)%string
        with (String a (pre ++ pat ++ post)).
      cbn [contains].
      destruct (String.prefix pat (String a (pre ++ pat ++ post)));
        [reflexivity|exact IH].
Qed.

Lemma not_contains_Contains (pat s : string) :
  negb (contains pat s) = true <-> ~ Contains pat s.
Proof.
  rewrite <- contains_Contains. destruct (contains pat s); simpl; split;
    intro H; solve [reflexivity | discriminate | congruence | now exfalso].
Qed.

Lemma filter_Kept {A : Type} (P : A -> Prop) (p : A -> bool) (l : list A) :
  (forall a, p a = true <-> P a) -> Kept P l (filter p l).
Proof.
  intro Hp. induction l as [|a l IH]; simpl; [constructor|].
  destruct (p a) eqn:E.
  - apply Kept_keep; [now apply Hp|exact IH].
  - apply Kept_drop; [|exact IH]. intro H. apply Hp in H. congruence.
Qed.

(** C8 (as amended). [remove_cv_and_rest] returns nothing and leaves in
    the collection it was given exactly the records that are continuous
    aliases, in the order they had. *)
Theorem remove_cv_and_rest_in_place (otoini : OtoIni) :
  fst (remove_cv_and_rest otoini) = tt /\
  Kept continuous_alias (data otoini) (data (snd (remove_cv_and_rest otoini))).
Proof.
  split; [reflexivity|]. simpl. apply filter_Kept.
  intro oto. unfold continuous_alias. simpl.
  rewrite !andb_true_iff, !not_contains_Contains, contains_Contains. tauto.
Qed.

(** C8 (as stated) fails: the call changes the collection it was given. *)
Lemma remove_cv_and_rest_changes_input :
  data (snd (remove_cv_and_rest sample_otoini))
    = [ rec "a.wav" "a s" 1400 100; rec "a.wav" "a t" 1900 100;
        rec "a.wav" "a k" 900 100 ] /\
  snd (remove_cv_and_rest sample_otoini) <> sample_otoini.
Proof. split; [reflexivity|discriminate]. Qed.

(** *** The run *)

Lemma preserves_lift {A : Type} (name : string) (r : result A) :
  preserves name (lift r).
Proof. now intro w. Qed.

Lemma preserves_bind {A B : Type} (name : string) (m : M A) (k : A -> M B) :
  preserves name m -> (forall a, preserves name (k a)) ->
  preserves name (bindM m k).
Proof.
  intros Hm Hk w. unfold bindM. specialize (Hm w).
  destruct (m w) as [[a|e] w']; simpl in *; [|exact Hm].
  now rewrite Hk.
Qed.

Lemma preserves_write (name n : string) (f : file) :
  n <> name -> preserves n (write_file name f).
Proof.
  intros Hn w. unfold write_file, write. simpl.
  now destruct (String.eqb_spec n name).
Qed.

Lemma written_then_preserved {A : Type} (name : string) (f : file)
    (k : unit -> M A) (w : World) :
  preserves name (k tt) ->
  snd (bindM (write_file name f) k w) name = Some f.
Proof.
  intro Hk. unfold bindM, write_file. rewrite Hk.
  unfold write. now rewrite String.eqb_refl.
Qed.

Lemma bindM_lift_Ok {A B : Type} (a : A) (k : A -> M B) (w : World) :
  bindM (lift (Ok a)) k w = k a w.
Proof. reflexivity. Qed.

Lemma bindM_write {A : Type} (name : string) (f : file) (k : unit -> M A)
    (w : World) :
  bindM (write_file name f) k w = k tt (write w name f).
Proof. reflexivity. Qed.

Section Run.

Local Open Scope string_scope.

Variable isdir : string -> bool.
Variable exists_ : string -> bool.
Variable load : string -> result OtoIni.

Lemma main_resolves (path p : string) (k : string -> M unit) (w : World) :
  path_otoini_of isdir exists_ path = Some p ->
  bindM (if isdir (strip dquote path)
         then if exists_ (strip dquote path ++ "/oto.ini")%string
              then ret (strip dquote path ++ "/oto.ini")%string
              else lift (Raise (AssertionError
                     "指定されたフォルダにoto.iniファイルがありません。"))
         else ret (strip dquote path)) k w
  = k p w.
Proof.
  unfold path_otoini_of. cbv zeta.
  destruct (isdir (strip dquote path)).
  - destruct (exists_ (strip dquote path ++ "/oto.ini")%string);
      [|discriminate].
    now intros [= <-].
  - now intros [= <-].
Qed.

Lemma main_loaded_written (path p : string) (otoini : OtoIni) (w : World) :
  path_otoini_of isdir exists_ path = Some p -> load p = Ok otoini ->
  snd (main isdir exists_ load path w) "sorted_otoini.txt"
  = Some (OtoFile (sorted_otoini otoini)).
Proof.
  intros Hp Hload. unfold main. cbv zeta.
  rewrite (main_resolves path p _ w Hp). cbv beta.
  rewrite Hload, bindM_lift_Ok.
  apply written_then_preserved.
  repeat (apply preserves_bind; [apply preserves_lift|intro]).
  apply preserves_write. discriminate.
Qed.

(** C9 (as amended). Once the file is loaded, the records written to
    [sorted_otoini.txt] are all the loaded records in sorted order: the
    file is written before the filter runs, whatever happens later in the
    run. *)
Theorem sorted_view_written_before_filter
    (path p : string) (otoini : OtoIni) (w : World) :
  path_otoini_of isdir exists_ path = Some p -> load p = Ok otoini ->
  snd (main isdir exists_ load path w) "sorted_otoini.txt"
    = Some (OtoFile (sorted_otoini otoini)) /\
  Permutation (sorted_otoini otoini) (data otoini) /\
  StronglySorted key_le (sorted_otoini otoini).
Proof.
  intros Hp Hload. split; [now apply (main_loaded_written path p)|].
  split; apply sorted_otoini_stable_sort.
Qed.

End Run.

(** *** Instances on the sample data *)

(** C9 (as stated) fails: the run below succeeds, and the sorted view it
    writes holds the single-vowel record that the filter removes from the
    records analysed. *)
Lemma sorted_view_holds_unfiltered_record :
  fst (main is_file is_file (loads sample_otoini) "oto.ini" no_files) = Ok tt /\
  snd (main is_file is_file (loads sample_otoini) "oto.ini" no_files)
      "sorted_otoini.txt"%string
    = Some (OtoFile [ rec "a.wav" "a" 400 100; rec "a.wav" "a k" 900 100;
                      rec "a.wav" "a s" 1400 100; rec "a.wav" "a t" 1900 100 ]) /\
  data (analysed sample_otoini)
    = [ rec "a.wav" "a k" 900 100; rec "a.wav" "a s" 1400 100;
        rec "a.wav" "a t" 1900 100 ] /\
  ~ continuous_alias (rec "a.wav" "a" 400 100).
Proof.
  split; [vm_compute; reflexivity|]. split; [vm_compute; reflexivity|].
  split; [reflexivity|]. intros [H _].
  apply contains_Contains in H. discriminate.
Qed.

(** *** Instances on the sample data *)



Lemma otoini_2d_sentinel_witness :
  (exists l_2d,
     otoini_2d {| data := [rec "a.wav" "a k" 900 100; rec "" "a s" 1400 100] |}
       = Ok l_2d /\
     Forall (fun g => g <> []) l_2d) /\
  otoini_2d {| data := [rec "" "a s" 1400 100; rec "a.wav" "a k" 900 100] |}
    = Raise (UnboundLocalError "l").
Proof.
  split.
  - apply (otoini_2d_sentinel (rec "a.wav" "a k" 900 100)
             [rec "" "a s" 1400 100]).
    discriminate.
  - apply (otoini_2d_sentinel (rec "" "a s" 1400 100)
             [rec "a.wav" "a k" 900 100]).
    reflexivity.
Defined.

Lemma sorted_view_written_before_filter_witness :
  snd (main is_file is_file (loads sample_otoini) "oto.ini" no_files)
      "sorted_otoini.txt"%string
    = Some (OtoFile (sorted_otoini sample_otoini)) /\
  Permutation (sorted_otoini sample_otoini) (data sample_otoini) /\
  StronglySorted key_le (sorted_otoini sample_otoini).
Proof.
  apply (sorted_view_written_before_filter is_file is_file
           (loads sample_otoini) "oto.ini" "oto.ini" sample_otoini no_files);
    reflexivity.
Defined.

(** ** Further properties of the functions *)

(** *** [remove_cv_and_rest] *)

Lemma filter_idempotent {A : Type} (p : A -> bool) (l : list A) :
  filter p (filter p l) = filter p l.
Proof.
  induction l as [|a l IH]; simpl; [reflexivity|].
  destruct (p a) eqn:E; simpl; [|exact IH]. now rewrite E, IH.
Qed.

(** X1. Filtering a collection that has been filtered changes nothing
    more. *)
Theorem remove_cv_and_rest_idempotent (otoini : OtoIni) :
  remove_cv_and_rest (snd (remove_cv_and_rest otoini))
  = remove_cv_and_rest otoini.
Proof.
  unfold remove_cv_and_rest, set_data. cbn [snd data].
  now rewrite filter_idempotent.
Qed.

(** *** [sorted_otoini] *)

(** X2. [sorted_otoini] returns the records of the collection, each as
    often as it occurs, ordered by filename and, within a filename, by
    offset; records with the same filename and equal offsets keep the
    order they had. *)
Theorem sorted_otoini_sorts_stably (otoini : OtoIni) :
  Permutation (sorted_otoini otoini) (data otoini) /\
  StronglySorted key_le (sorted_otoini otoini) /\
  (forall f o, filter (same_key f o) (sorted_otoini otoini)
               = filter (same_key f o) (data otoini)).
Proof.
  unfold sorted_otoini. split; [apply sorted_perm|].
  split; [apply sorted_sorted|]. intros f o. apply sorted_stable.
Qed.

Lemma key_le_not_lt (x y : Oto) : key_le x y -> key_lt y x = false.
Proof.
  intro Hle. destruct (key_lt y x) eqn:E; [|reflexivity]. exfalso.
  rewrite key_lt_unfold in E. unfold key_le in Hle.
  destruct (String.eqb_spec (filename y) (filename x)) as [Ef|Ef];
    simpl in E.
  - destruct Hle as [Hlt|[_ Hle]].
    + rewrite Ef in Hlt. now apply str_lt_irrefl in Hlt.
    + destruct (Qeq_bool (offset y) (offset x)); simpl in E;
        [discriminate|].
      apply Qltb_lt in E. lra.
  - destruct Hle as [Hlt|[Ef' _]]; [|congruence].
    apply (str_lt_irrefl (filename x)).
    eapply str_lt_trans; eassumption.
Qed.

Lemma sorted_of_sorted (l : list Oto) :
  StronglySorted key_le l -> sorted key_lt l = l.
Proof.
  induction 1 as [|x l Hs IH Hx]; simpl; [reflexivity|].
  rewrite IH. destruct l as [|y l]; simpl; [reflexivity|].
  now rewrite (key_le_not_lt x y (Forall_inv Hx)).
Qed.

(** X3. Sorting a collection that is already in sorted order returns it
    unchanged; in particular sorting twice is sorting once. *)
Theorem sorted_otoini_fixes_sorted (otoini : OtoIni) :
  (StronglySorted key_le (data otoini) -> sorted_otoini otoini = data otoini) /\
  sorted_otoini (set_data otoini (sorted_otoini otoini)) = sorted_otoini otoini.
Proof.
  unfold sorted_otoini, set_data. cbn [data]. split.
  - apply sorted_of_sorted.
  - apply sorted_of_sorted, sorted_sorted.
Qed.

Lemma sorted_otoini_fixes_sorted_witness :
  sorted_otoini {| data := [ rec "a.wav" "a k" 900 100;
                             rec "a.wav" "a s" 1400 100;
                             rec "b.wav" "i k" 900 100 ] |}
  = [ rec "a.wav" "a k" 900 100; rec "a.wav" "a s" 1400 100;
      rec "b.wav" "i k" 900 100 ].
Proof.
  apply (proj1 (sorted_otoini_fixes_sorted
           {| data := [ rec "a.wav" "a k" 900 100;
                        rec "a.wav" "a s" 1400 100;
                        rec "b.wav" "i k" 900 100 ] |})).
  repeat first [ apply SSorted_cons | apply SSorted_nil
               | apply Forall_cons | apply Forall_nil ];
    unfold key_le; simpl;
    solve [ right; split; [reflexivity|discriminate]
          | left; reflexivity ].
Defined.

(** *** [otoini_2d] *)

Lemma group_runs_maximal (l : list Oto) : maximal_runs (group_runs l).
Proof.
  destruct l as [|first rest]; [split; constructor|].
  split.
  - apply (runs_groups rest (filename first) [first]);
      [discriminate|now repeat constructor].
  - apply (runs_adjacent rest (filename first) [first]);
      [discriminate|now repeat constructor].
Qed.

Lemma group_runs_concat (l : list Oto) : List.concat (group_runs l) = l.
Proof.
  destruct l as [|first rest]; [reflexivity|].
  apply (runs_concat rest (filename first) [first]).
Qed.

Lemma otoini_2d_group_runs (l : list Oto) :
  (forall first rest, l = first :: rest -> filename first <> EmptyString) ->
  otoini_2d {| data := l |} = Ok (group_runs l).
Proof.
  intro H. destruct l as [|first rest]; [reflexivity|].
  apply otoini_2d_nonempty_name. now apply (H first rest).
Qed.

(** X4. Unless the first record has the empty filename, [otoini_2d] cuts
    the sequence, whatever its order, into maximal runs of one filename:
    the groups, one after the other, are the sequence; each is non-empty
    and of one file; neighbouring groups are of different files. *)
Theorem otoini_2d_maximal_runs (otoini : OtoIni) :
  (forall first rest, data otoini = first :: rest ->
     filename first <> EmptyString) ->
  exists l_2d,
    otoini_2d otoini = Ok l_2d /\
    List.concat l_2d = data otoini /\
    maximal_runs l_2d.
Proof.
  destruct otoini as [l]. cbn [data]. intro H.
  exists (group_runs l).
  split; [now apply otoini_2d_group_runs|].
  split; [apply group_runs_concat|apply group_runs_maximal].
Qed.

Lemma otoini_2d_maximal_runs_witness :
  exists l_2d,
    otoini_2d sample_otoini = Ok l_2d /\
    List.concat l_2d = data sample_otoini /\
    maximal_runs l_2d.
Proof.
  apply (otoini_2d_maximal_runs sample_otoini).
  intros first rest [= <- _]. discriminate.
Defined.

Lemma runs_app_same (f : string) (g it cur : list Oto) :
  group_of f g -> runs f cur (g ++ it) = runs f (cur ++ g) it.
Proof.
  intro H. revert cur. induction H as [|a g Ha _ IH]; intro cur; simpl.
  - now rewrite app_nil_r.
  - rewrite Ha, String.eqb_refl, IH. now rewrite <- app_assoc.
Qed.

Lemma runs_of_concat (groups : list (list Oto)) (f : string) (cur : list Oto) :
  maximal_runs groups ->
  (forall g rest, groups = g :: rest -> group_file g <> f) ->
  runs f cur (List.concat groups) = cur :: groups.
Proof.
  intros [Hall Hadj]. revert f cur.
  induction Hall as [|g groups [Hne Hg] Hall IH]; intros f cur Hhd.
  - reflexivity.
  - destruct g as [|a g]; [congruence|]. simpl in *.
    specialize (Hhd (a :: g) groups eq_refl). simpl in Hhd.
    destruct (String.eqb_spec f (filename a)) as [E|_]; [congruence|].
    f_equal. apply Forall_inv_tail in Hg.
    rewrite runs_app_same by exact Hg. simpl.
    apply Sorted_inv in Hadj as [Hadj Hrel].
    apply IH; [exact Hadj|].
    intros g' rest ->. simpl in Hrel. apply HdRel_inv in Hrel. congruence.
Qed.

(** X5. Grouping undoes concatenation: a grouping into maximal runs whose
    first file is not the empty string is what [otoini_2d] returns on the
    groups laid end to end. *)
Theorem otoini_2d_of_concat (list_oto_2d : list (list Oto)) :
  maximal_runs list_oto_2d ->
  (forall g rest, list_oto_2d = g :: rest -> group_file g <> EmptyString) ->
  otoini_2d {| data := List.concat list_oto_2d |} = Ok list_oto_2d.
Proof.
  intros Hruns Hhd.
  destruct list_oto_2d as [|g groups]; [reflexivity|].
  pose proof Hruns as [Hall Hadj].
  pose proof (Forall_inv Hall) as [Hne Hg].
  destruct g as [|a g]; [congruence|].
  specialize (Hhd (a :: g) groups eq_refl). simpl in Hhd.
  simpl List.concat. rewrite otoini_2d_nonempty_name by exact Hhd.
  f_equal. unfold group_runs.
  simpl in Hg. apply Forall_inv_tail in Hg.
  rewrite runs_app_same by exact Hg. simpl.
  apply runs_of_concat.
  - split; [now apply Forall_inv_tail in Hall|].
    now apply Sorted_inv in Hadj.
  - intros g' rest ->. simpl in Hadj.
    apply Sorted_inv in Hadj as [_ Hrel]. apply HdRel_inv in Hrel.
    simpl in Hrel. congruence.
Qed.

Lemma sample_groups_maximal_runs : maximal_runs sample_groups.
Proof.
  split.
  - repeat constructor; discriminate.
  - repeat constructor. discriminate.
Defined.

Lemma otoini_2d_of_concat_witness :
  otoini_2d {| data := List.concat sample_groups |} = Ok sample_groups.
Proof.
  apply (otoini_2d_of_concat sample_groups sample_groups_maximal_runs).
  intros g rest [= <- _]. discriminate.
Defined.

(** *** Sorting, filtering and grouping together *)

Lemma StronglySorted_filter {A : Type} (R : A -> A -> Prop) (p : A -> bool)
    (l : list A) :
  StronglySorted R l -> StronglySorted R (filter p l).
Proof.
  induction 1 as [|a l Hs IH Ha]; simpl; [constructor|].
  destruct (p a); [|exact IH]. constructor; [exact IH|].
  rewrite Forall_forall in *. intros b Hb.
  apply filter_In in Hb as [Hb _]. now apply Ha.
Qed.

Lemma Forall_filter {A : Type} (P : A -> Prop) (p : A -> bool) (l : list A) :
  Forall P l -> Forall P (filter p l).
Proof.
  rewrite !Forall_forall. intros H a Ha.
  apply filter_In in Ha as [Ha _]. now apply H.
Qed.

Lemma group_sorted (l : list Oto) :
  StronglySorted key_le l ->
  Forall (fun oto => filename oto <> EmptyString) l ->
  otoini_2d {| data := l |} = Ok (group_runs l) /\
  Forall (StronglySorted offset_le) (group_runs l) /\
  StronglySorted str_lt (map group_file (group_runs l)).
Proof.
  intros Hs Hne.
  destruct (group_runs_maximal l) as [Hall Hadj].
  rewrite <- (group_runs_concat l) in Hs.
  split; [|split].
  - apply otoini_2d_group_runs. intros first rest ->.
    now apply Forall_inv in Hne.
  - now apply groups_offsets_sorted.
  - now apply group_files_ascending.
Qed.

Lemma maximal_runs_grouped (groups : list (list Oto)) :
  maximal_runs groups -> grouped groups.
Proof.
  intros [Hall _]. eapply Forall_impl; [|exact Hall].
  intros g [Hne Hg]. split; [exact Hne|]. now exists (group_file g).
Qed.

(** X6. The groups [main] works on.  When no record has the empty
    filename, grouping the sorted and then filtered collection returns
    groups that, end to end, are the kept records in sorted order; they
    form a grouped dataset, each group is ordered by offset, and the files
    of the groups are strictly ascending. *)
Theorem analysed_groups (otoini : OtoIni) :
  Forall (fun oto => filename oto <> EmptyString) (data otoini) ->
  exists l_2d,
    otoini_2d (analysed otoini) = Ok l_2d /\
    List.concat l_2d = data (analysed otoini) /\
    Kept continuous_alias (sorted_otoini otoini) (data (analysed otoini)) /\
    grouped l_2d /\
    Forall (StronglySorted offset_le) l_2d /\
    StronglySorted str_lt (map group_file l_2d).
Proof.
  intro Hne.
  assert (Hkept : Kept continuous_alias (sorted_otoini otoini)
                       (data (analysed otoini))).
  { unfold analysed, remove_cv_and_rest, set_data. cbn [snd data].
    apply filter_Kept. intro oto. unfold continuous_alias. simpl.
    rewrite !andb_true_iff, !not_contains_Contains, contains_Contains.
    tauto. }
  assert (Hs : StronglySorted key_le (data (analysed otoini))).
  { unfold analysed, remove_cv_and_rest, set_data. cbn [snd data].
    apply StronglySorted_filter. unfold sorted_otoini. apply sorted_sorted. }
  assert (Hf : Forall (fun oto => filename oto <> EmptyString)
                      (data (analysed otoini))).
  { unfold analysed, remove_cv_and_rest, set_data. cbn [snd data].
    apply Forall_filter.
    eapply Permutation_Forall; [|exact Hne].
    symmetry. unfold sorted_otoini. apply sorted_perm. }
  destruct (analysed otoini) as [l]. cbn [data] in *.
  destruct (group_sorted l Hs Hf) as (H2d & Hoff & Hasc).
  exists (group_runs l). split; [exact H2d|].
  split; [apply group_runs_concat|]. split; [exact Hkept|].
  split; [apply maximal_runs_grouped, group_runs_maximal|].
  split; assumption.
Qed.

Lemma sample_otoini_named :
  Forall (fun oto => filename oto <> EmptyString) (data sample_otoini).
Proof. repeat constructor; discriminate. Defined.

Lemma analysed_groups_witness :
  exists l_2d,
    otoini_2d (analysed sample_otoini) = Ok l_2d /\
    List.concat l_2d = data (analysed sample_otoini) /\
    Kept continuous_alias (sorted_otoini sample_otoini)
         (data (analysed sample_otoini)) /\
    grouped l_2d /\
    Forall (StronglySorted offset_le) l_2d /\
    StronglySorted str_lt (map group_file l_2d).
Proof. exact (analysed_groups sample_otoini sample_otoini_named). Defined.

Lemma sort_then_group_witness :
  exists l_2d,
    otoini_2d (set_data sample_otoini (sorted_otoini sample_otoini)) = Ok l_2d /\
    List.concat l_2d = sorted_otoini sample_otoini /\
    Forall (fun g => g <> [] /\ group_of (group_file g) g /\
                     StronglySorted offset_le g) l_2d /\
    StronglySorted str_lt (map group_file l_2d).
Proof. exact (sort_then_group sample_otoini sample_otoini_named). Defined.

(** *** The two checks *)

Lemma flags_ascending (f : list Oto -> list string) (groups : list (list Oto)) :
  (forall g, In g groups -> f g = [] \/ f g = [group_file g]) ->
  StronglySorted str_lt (map group_file groups) ->
  StronglySorted str_lt (flat_map f groups) /\
  incl (flat_map f groups) (map group_file groups).
Proof.
  induction groups as [|g groups IH]; simpl; intros Hf Hs.
  - split; [constructor|apply incl_refl].
  - apply StronglySorted_inv in Hs as [Hs Hg].
    destruct (IH (fun g' Hg' => Hf g' (or_intror Hg')) Hs) as [IHs IHi].
    destruct (Hf g (or_introl eq_refl)) as [-> | ->]; simpl.
    + split; [exact IHs|now apply incl_tl].
    + split.
      * constructor; [exact IHs|].
        rewrite Forall_forall in *. intros x Hx. apply Hg. now apply IHi.
      * apply incl_cons; [now left|now apply incl_tl].
Qed.

Lemma StronglySorted_str_lt_NoDup (l : list string) :
  StronglySorted str_lt l -> NoDup l.
Proof.
  induction 1 as [|a l _ IH Ha]; constructor; [|exact IH].
  intro Hin. rewrite Forall_forall in Ha.
  now apply (str_lt_irrefl a), Ha.
Qed.

(** X10. On groups into maximal runs whose files are strictly ascending
    (as [main] builds them) both checks return file names of the dataset in
    strictly ascending order, hence no name twice. *)
Theorem checks_return_ascending_names
    (list_oto_2d : list (list Oto)) (ms_per_beat median_start threshold : Q) :
  maximal_runs list_oto_2d ->
  StronglySorted str_lt (map group_file list_oto_2d) ->
  exists bad_start bad_alias : list string,
    detect_bad_wavfiles list_oto_2d ms_per_beat median_start threshold
      = Ok bad_start /\
    detect_bad_aliases list_oto_2d ms_per_beat threshold = Ok bad_alias /\
    StronglySorted str_lt bad_start /\ NoDup bad_start /\
    incl bad_start (map group_file list_oto_2d) /\
    StronglySorted str_lt bad_alias /\ NoDup bad_alias /\
    incl bad_alias (map group_file list_oto_2d).
Proof.
  intros [Hall _] Hs.
  assert (Hne : Forall (fun g => g <> []) list_oto_2d).
  { eapply Forall_impl; [|exact Hall]. simpl. tauto. }
  destruct (flags_ascending
              (first_onset_flag ms_per_beat median_start threshold)
              list_oto_2d) as [Hw1 Hw2]; [|exact Hs|].
  { intros [|first rest] _; simpl; [now left|].
    destruct (_ && _); [now left|now right]. }
  destruct (flags_ascending (scan_group ms_per_beat threshold) list_oto_2d)
    as [Ha1 Ha2]; [|exact Hs|].
  { intros g Hg. apply scan_group_file.
    rewrite Forall_forall in Hall. now apply Hall. }
  eexists. eexists.
  split; [unfold detect_bad_wavfiles;
          now rewrite detect_bad_wavfiles_loop_flags by exact Hne|].
  split; [unfold detect_bad_aliases;
          now rewrite detect_bad_aliases_outer_scan|].
  simpl. auto 10 using StronglySorted_str_lt_NoDup.
Qed.

Lemma checks_return_ascending_names_witness :
  exists bad_start bad_alias : list string,
    detect_bad_wavfiles sample_groups 500 1000 (2 # 10) = Ok bad_start /\
    detect_bad_aliases sample_groups 500 (2 # 10) = Ok bad_alias /\
    StronglySorted str_lt bad_start /\ NoDup bad_start /\
    incl bad_start (map group_file sample_groups) /\
    StronglySorted str_lt bad_alias /\ NoDup bad_alias /\
    incl bad_alias (map group_file sample_groups).
Proof.
  apply (checks_return_ascending_names sample_groups 500 1000 (2 # 10)
           sample_groups_maximal_runs).
  repeat first [ apply SSorted_cons | apply SSorted_nil
               | apply Forall_cons | apply Forall_nil ].
  reflexivity.
Defined.








(** *** Empty groups *)

Lemma first_preutterances_empty_group (groups : list (list Oto)) :
  In [] groups ->
  first_preutterances groups = Raise (IndexError "list index out of range").
Proof.
  induction groups as [|g groups IH]; simpl; [tauto|].
  intros [->|H]; [reflexivity|].
  destruct g as [|first rest]; [reflexivity|]. simpl.
  now rewrite IH.
Qed.

Lemma detect_bad_wavfiles_loop_empty_group (groups : list (list Oto))
    (fl ce : Q) (bad : list string) :
  In [] groups ->
  detect_bad_wavfiles_loop groups fl ce bad
  = Raise (IndexError "list index out of range").
Proof.
  revert bad. induction groups as [|g groups IH]; intro bad; simpl; [tauto|].
  intros [->|H]; [reflexivity|].
  destruct g as [|first rest]; [reflexivity|]. simpl.
  destruct (negb _); now apply IH.
Qed.

Lemma flat_map_has_record {B : Type} (f : list Oto -> list B)
    (groups : list (list Oto)) :
  f [] = [] -> flat_map f (filter has_record groups) = flat_map f groups.
Proof.
  intro Hf. induction groups as [|g groups IH]; simpl; [reflexivity|].
  destruct g as [|first rest]; simpl; [now rewrite Hf|now rewrite IH].
Qed.

(** X14. A group without records makes the two functions that read
    [l_oto[0]] raise [IndexError], whatever the other groups are; the two
    functions that walk the pairs of a group pass over it as if it were not
    there. *)
Theorem empty_group_behaviour
    (list_oto_2d : list (list Oto)) (ms_per_beat median_start threshold : Q) :
  In [] list_oto_2d ->
  median_of_first_preutterance list_oto_2d
    = Raise (IndexError "list index out of range") /\
  detect_bad_wavfiles list_oto_2d ms_per_beat median_start threshold
    = Raise (IndexError "list index out of range") /\
  median_of_ms_per_beat list_oto_2d
    = median_of_ms_per_beat (filter has_record list_oto_2d) /\
  detect_bad_aliases list_oto_2d ms_per_beat threshold
    = detect_bad_aliases (filter has_record list_oto_2d) ms_per_beat threshold.
Proof.
  intro H. split; [|split; [|split]].
  - unfold median_of_first_preutterance.
    now rewrite first_preutterances_empty_group.
  - unfold detect_bad_wavfiles.
    now apply detect_bad_wavfiles_loop_empty_group.
  - rewrite !median_of_ms_per_beat_eq. unfold durations.
    now rewrite flat_map_has_record.
  - unfold detect_bad_aliases. rewrite !detect_bad_aliases_outer_scan.
    now rewrite flat_map_has_record.
Qed.

Lemma empty_group_behaviour_witness :
  median_of_first_preutterance ([] :: sample_groups)
    = Raise (IndexError "list index out of range") /\
  detect_bad_wavfiles ([] :: sample_groups) 500 1000 (2 # 10)
    = Raise (IndexError "list index out of range") /\
  median_of_ms_per_beat ([] :: sample_groups)
    = median_of_ms_per_beat (filter has_record ([] :: sample_groups)) /\
  detect_bad_aliases ([] :: sample_groups) 500 (2 # 10)
    = detect_bad_aliases (filter has_record ([] :: sample_groups)) 500 (2 # 10).
Proof.
  apply (empty_group_behaviour ([] :: sample_groups) 500 1000 (2 # 10)).
  now left.
Defined.

(** *** Where the medians lie *)

(** *** Outcomes of [main] *)

Lemma preserves_ret {A : Type} (name : string) (a : A) : preserves name (ret a).
Proof. now intro w. Qed.

Section Outcomes.

Local Open Scope string_scope.

Variable isdir : string -> bool.
Variable exists_ : string -> bool.
Variable load : string -> result OtoIni.

Lemma main_grouping_failure (path p : string) (otoini : OtoIni) (e : exn)
    (w : World) :
  path_otoini_of isdir exists_ path = Some p -> load p = Ok otoini ->
  otoini_2d (analysed otoini) = Raise e ->
  main isdir exists_ load path w
  = (Raise e, write w "sorted_otoini.txt" (OtoFile (sorted_otoini otoini))).
Proof.
  intros Hp Hload H2d. unfold main. cbv zeta.
  rewrite (main_resolves isdir exists_ path p _ w Hp). cbv beta.
  rewrite Hload, bindM_lift_Ok, bindM_write.
  unfold analysed, remove_cv_and_rest in H2d. cbn [snd] in H2d.
  unfold remove_cv_and_rest. cbv iota beta.
  now rewrite H2d.
Qed.

(** X17. A run that fails before the records are loaded writes no file:
    a folder without [oto.ini] raises [AssertionError] before anything is
    loaded, and an exception of the loader is passed on.  A run that fails
    in grouping has written the sorted view and nothing else. *)
Theorem main_early_failures (path : string) (w : World) :
  (isdir (strip dquote path) = true ->
   exists_ (strip dquote path ++ "/oto.ini") = false ->
   main isdir exists_ load path w
   = (Raise (AssertionError
        "指定されたフォルダにoto.iniファイルがありません。"), w)) /\
  (forall p e,
     path_otoini_of isdir exists_ path = Some p -> load p = Raise e ->
     main isdir exists_ load path w = (Raise e, w)) /\
  (forall p otoini e,
     path_otoini_of isdir exists_ path = Some p -> load p = Ok otoini ->
     otoini_2d (analysed otoini) = Raise e ->
     main isdir exists_ load path w
     = (Raise e, write w "sorted_otoini.txt"
                   (OtoFile (sorted_otoini otoini)))).
Proof.
  split; [|split].
  - intros Hdir Hex. unfold main. cbv zeta. now rewrite Hdir, Hex.
  - intros p e Hp Hload. unfold main. cbv zeta.
    rewrite (main_resolves isdir exists_ path p _ w Hp). cbv beta.
    now rewrite Hload.
  - intros p otoini e. apply main_grouping_failure.
Qed.

(** X19. Whatever the outcome, [main] leaves every file other than
    [sorted_otoini.txt] and [result.txt] as it was. *)
Theorem main_writes_two_files_only (path name : string) (w : World) :
  name <> "sorted_otoini.txt" -> name <> "result.txt" ->
  snd (main isdir exists_ load path w) name = w name.
Proof.
  intros H1 H2. revert w. change (preserves name (main isdir exists_ load path)).
  unfold main. cbv zeta.
  apply preserves_bind.
  { destruct (isdir _); [destruct (exists_ _)|];
      first [apply preserves_ret | apply preserves_lift]. }
  intro p. apply preserves_bind; [apply preserves_lift|]. intro otoini.
  apply preserves_bind; [now apply preserves_write|]. intros _.
  repeat (apply preserves_bind; [apply preserves_lift|intro]).
  now apply preserves_write.
Qed.

End Outcomes.

Lemma main_writes_two_files_only_witness :
  snd (main is_file is_file (loads sample_otoini) "oto.ini" no_files)
      "oto.ini"%string
  = None.
Proof.
  apply (main_writes_two_files_only is_file is_file (loads sample_otoini)
           "oto.ini" "oto.ini" no_files); discriminate.
Defined.

Lemma main_early_failures_witness :
  main (fun _ => true) (fun _ => false) (loads sample_otoini)
       "voice" no_files
  = (Raise (AssertionError
       "指定されたフォルダにoto.iniファイルがありません。"), no_files).
Proof.
  apply (main_early_failures (fun _ => true) (fun _ => false)
           (loads sample_otoini) "voice" no_files); reflexivity.
Defined.

(** *** Duplicated aliases *)









(** *** A steady recording *)


(** ** Properties of the program in binary64 *)

Module B64Facts.

Import PrimFloat FloatOps FloatAxioms SpecFloat.
Import B64.

Local Open Scope float_scope.

Lemma bandb_in_band_b64 (m t d : float) :
  (m * (1 - t) <? d) && (d <? m * (1 + t)) = true <-> in_band m t d.
Proof. unfold in_band. now rewrite andb_true_iff. Qed.

Lemma start_bandb_in_start_band_b64 (ms m t x : float) :
  (m - ms * t <? x) && (x <? m + ms * t) = true <-> in_start_band ms m t x.
Proof. unfold in_start_band. now rewrite andb_true_iff. Qed.

(** *** The inter-onset check *)

Lemma detect_bad_aliases_inner_scan_b64 (m t : float) (rest front : list Oto)
    (prev : Oto) (bad : list string) :
  detect_bad_aliases_inner (front ++ prev :: rest)
    (enumerate rest (S (List.length front))) m t bad
  = Ok (bad ++ scan m t prev rest).
Proof.
  revert front prev bad.
  induction rest as [|curr rest IH]; intros front prev bad; simpl.
  - now rewrite app_nil_r.
  - rewrite Nat.sub_0_r, index_middle. simpl.
    fold (onset_time curr) (onset_time prev) (delta prev curr).
    assert (Hnext : forall bad',
      detect_bad_aliases_inner (front ++ prev :: curr :: rest)
        (enumerate rest (S (S (List.length front)))) m t bad'
      = Ok (bad' ++ scan m t curr rest)).
    { intro bad'.
      specialize (IH (front ++ [prev]) curr bad').
      rewrite <- app_assoc, length_app in IH. simpl in IH.
      now rewrite Nat.add_1_r in IH. }
    destruct (delta prev curr =? 0); [apply Hnext|].
    destruct ((m * (1 - t) <? delta prev curr)
              && (delta prev curr <? m * (1 + t))); simpl;
      [apply Hnext|reflexivity].
Qed.

Lemma detect_bad_aliases_outer_scan_b64 (m t : float) (groups : list (list Oto))
    (bad : list string) :
  detect_bad_aliases_outer groups m t bad
  = Ok (bad ++ flat_map (scan_group m t) groups).
Proof.
  revert bad. induction groups as [|g groups IH]; intro bad; simpl.
  - now rewrite app_nil_r.
  - destruct g as [|first rest]; simpl.
    + apply IH.
    + pose proof (detect_bad_aliases_inner_scan_b64 m t rest [] first bad) as H.
      simpl in H. rewrite H. simpl.
      now rewrite IH, app_assoc.
Qed.

Lemma pair_at_cons (a : Oto) (g : list Oto) (i : nat) (p c : Oto) :
  pair_at (a :: g) (S i) p c <-> pair_at g i p c.
Proof. unfold pair_at. simpl. tauto. Qed.

Lemma pair_at_head (a b : Oto) (g : list Oto) (p c : Oto) :
  pair_at (a :: b :: g) 0 p c <-> p = a /\ c = b.
Proof.
  unfold pair_at. simpl. split.
  - intros [H1 H2]. now inversion H1; inversion H2.
  - intros [-> ->]. tauto.
Qed.

Lemma scan_verdict (m t : float) (rest : list Oto) (prev : Oto) :
  alias_verdict m t (prev :: rest) (scan m t prev rest).
Proof.
  revert prev. induction rest as [|curr rest IH]; intro prev; simpl.
  - left. split; [reflexivity|].
    intros i p c [_ H]. destruct i; discriminate.
  - assert (Hstep : pair_passes m t prev curr ->
      alias_verdict m t (prev :: curr :: rest) (scan m t curr rest)).
    { intro Hok.
      destruct (IH curr)
        as [[Hout Hall]|(i & p & c & Hp & Hbad & Hbefore & Hout)].
      - left. split; [exact Hout|].
        intros [|i] p c Hp.
        + apply pair_at_head in Hp as [-> ->]. exact Hok.
        + apply pair_at_cons in Hp. eauto.
      - right. exists (S i), p, c.
        split; [now apply pair_at_cons|].
        split; [exact Hbad|]. split; [|exact Hout].
        intros [|j] p' c' Hj Hp'.
        + apply pair_at_head in Hp' as [-> ->]. exact Hok.
        + apply pair_at_cons in Hp'. apply (Hbefore j); [lia|exact Hp']. }
    destruct (delta prev curr =? 0) eqn:Ez.
    { apply Hstep. now left. }
    destruct ((m * (1 - t) <? delta prev curr)
              && (delta prev curr <? m * (1 + t))) eqn:Eb.
    { apply Hstep. right. now apply bandb_in_band_b64. }
    right. exists 0%nat, prev, curr.
    split; [now apply pair_at_head|]. split; [|split; [|reflexivity]].
    + intros [Hz|Hb].
      * congruence.
      * apply bandb_in_band_b64 in Hb. congruence.
    + intros j p c Hj. lia.
Qed.

Lemma scan_group_verdict (m t : float) (g : list Oto) :
  alias_verdict m t g (scan_group m t g).
Proof.
  destruct g as [|first rest]; [|apply scan_verdict].
  left. split; [reflexivity|]. intros [|i] p c [H _]; discriminate.
Qed.

Lemma scan_file_b64 (m t : float) (f : string) (rest : list Oto) (prev : Oto) :
  group_of f rest -> scan m t prev rest = [] \/ scan m t prev rest = [f].
Proof.
  intro H. revert prev. induction H as [|curr rest Hc _ IH]; intro prev; simpl.
  - now left.
  - destruct (delta prev curr =? 0); [apply IH|].
    destruct (_ && _); [apply IH|]. right. now rewrite Hc.
Qed.

Lemma scan_group_file_b64 (m t : float) (f : string) (g : list Oto) :
  group_of f g -> scan_group m t g = [] \/ scan_group m t g = [f].
Proof.
  destruct g as [|first rest]; [now left|]. simpl.
  intro H. apply Forall_inv_tail in H. now apply scan_file_b64.
Qed.

(** C1. In binary64, as the program computes: the inter-onset check never
    raises and returns, group by group in order, what the scan of the
    group yields.  With [delta] the rounded difference of the rounded onset
    sums, a pair passes when [delta == 0] or
    [ms_per_beat * (1 - threshold) < delta < ms_per_beat * (1 + threshold)]
    holds of the rounded bounds; a group yields nothing if every
    consecutive pair passes, else once the filename of the second record of
    the first pair that does not, the rest of the group not being looked
    at.  A group of at most one record yields nothing, and a group of one
    wav file yields at most that file's name. *)
Theorem detect_bad_aliases_first_violation
    (list_oto_2d : list (list Oto)) (ms_per_beat threshold : float) :
  exists outs : list (list string),
    detect_bad_aliases list_oto_2d ms_per_beat threshold = Ok (List.concat outs) /\
    Forall2 (alias_verdict ms_per_beat threshold) list_oto_2d outs /\
    Forall2 (fun g out => (List.length g <= 1)%nat -> out = []) list_oto_2d outs /\
    Forall2 (fun g out => forall f, group_of f g -> out = [] \/ out = [f])
            list_oto_2d outs.
Proof.
  exists (map (scan_group ms_per_beat threshold) list_oto_2d).
  split; [|split; [|split]].
  - unfold detect_bad_aliases. rewrite detect_bad_aliases_outer_scan_b64.
    now rewrite flat_map_concat_map.
  - induction list_oto_2d; simpl; constructor; auto using scan_group_verdict.
  - induction list_oto_2d as [|g gs IH]; simpl; constructor; auto.
    destruct g as [|a [|b g]]; simpl; intros; try reflexivity; lia.
  - induction list_oto_2d as [|g gs IH]; simpl; constructor; auto.
    intros f. apply scan_group_file_b64.
Qed.

Lemma detect_bad_aliases_first_violation_witness :
  exists outs : list (list string),
    detect_bad_aliases sample_groups 500 0.2 = Ok (List.concat outs) /\
    Forall2 (alias_verdict 500 0.2) sample_groups outs /\
    Forall2 (fun g out => (List.length g <= 1)%nat -> out = [])
            sample_groups outs /\
    Forall2 (fun g out => forall f, group_of f g -> out = [] \/ out = [f])
            sample_groups outs.
Proof. exact (detect_bad_aliases_first_violation sample_groups 500 0.2). Defined.

(** *** The first-onset check *)

Lemma detect_bad_wavfiles_loop_flags_b64 (ms m t : float)
    (groups : list (list Oto)) (bad : list string) :
  Forall (fun g => g <> []) groups ->
  detect_bad_wavfiles_loop groups (m - ms * t) (m + ms * t) bad
  = Ok (bad ++ flat_map (first_onset_flag ms m t) groups).
Proof.
  intro H. revert bad. induction H as [|g groups Hg _ IH]; intro bad; simpl.
  - now rewrite app_nil_r.
  - destruct g as [|first rest]; [congruence|]. simpl.
    fold (onset_time first).
    destruct ((m - ms * t <? onset_time first)
              && (onset_time first <? m + ms * t)); simpl.
    + apply IH.
    + now rewrite IH, <- app_assoc.
Qed.

Lemma first_onset_flag_verdict (ms m t : float) (g : list Oto) :
  g <> [] -> start_verdict ms m t g (first_onset_flag ms m t g).
Proof.
  destruct g as [|first rest]; [congruence|]. intros _.
  exists first, rest. split; [reflexivity|]. simpl.
  destruct ((m - ms * t <? onset_time first)
            && (onset_time first <? m + ms * t)) eqn:E.
  - left. split; [now apply start_bandb_in_start_band_b64|reflexivity].
  - right. split; [|reflexivity].
    intro Hb. apply start_bandb_in_start_band_b64 in Hb. congruence.
Qed.

(** C2. In binary64, as the program computes: on groups that are all
    non-empty the first-onset check returns, group by group in order, the
    filename of the group's first record exactly when the rounded onset [t]
    of that record does not satisfy
    [median_start - ms_per_beat * threshold < t
     < median_start + ms_per_beat * threshold] with the bounds as rounded,
    and nothing for the group otherwise; no other record of the group
    enters. *)
Theorem detect_bad_wavfiles_first_onset
    (list_oto_2d : list (list Oto))
    (ms_per_beat median_start threshold : float) :
  Forall (fun g => g <> []) list_oto_2d ->
  exists outs : list (list string),
    detect_bad_wavfiles list_oto_2d ms_per_beat median_start threshold
      = Ok (List.concat outs) /\
    Forall2 (start_verdict ms_per_beat median_start threshold)
            list_oto_2d outs.
Proof.
  intro H.
  exists (map (first_onset_flag ms_per_beat median_start threshold) list_oto_2d).
  split.
  - unfold detect_bad_wavfiles.
    rewrite detect_bad_wavfiles_loop_flags_b64 by exact H.
    now rewrite flat_map_concat_map.
  - induction H; simpl; constructor; auto using first_onset_flag_verdict.
Qed.

Lemma detect_bad_wavfiles_first_onset_witness :
  exists outs : list (list string),
    detect_bad_wavfiles sample_groups 500 1000 0.2 = Ok (List.concat outs) /\
    Forall2 (start_verdict 500 1000 0.2) sample_groups outs.
Proof.
  apply (detect_bad_wavfiles_first_onset sample_groups 500 1000 0.2).
  repeat constructor; discriminate.
Defined.

(** *** Tempo estimation *)

Lemma durations_of_group_cons_b64 (a b : Oto) (rest : list Oto) :
  durations_of_group (a :: b :: rest)
  = (if negb (delta a b =? 0) then [delta a b] else [])
    ++ durations_of_group (b :: rest).
Proof.
  unfold durations_of_group, pairs. simpl.
  now destruct (negb (delta a b =? 0)).
Qed.

Lemma ms_per_beat_inner_durations_b64 (rest front : list Oto) (prev : Oto)
    (l_times : list float) :
  ms_per_beat_inner (front ++ prev :: rest)
    (enumerate rest (S (List.length front))) l_times
  = Ok (l_times ++ durations_of_group (prev :: rest)).
Proof.
  revert front prev l_times.
  induction rest as [|curr rest IH]; intros front prev l_times.
  - simpl. now rewrite app_nil_r.
  - rewrite durations_of_group_cons_b64. simpl.
    rewrite Nat.sub_0_r, index_middle. simpl.
    fold (onset_time curr) (onset_time prev) (delta prev curr).
    assert (Hnext : forall l_times',
      ms_per_beat_inner (front ++ prev :: curr :: rest)
        (enumerate rest (S (S (List.length front)))) l_times'
      = Ok (l_times' ++ durations_of_group (curr :: rest))).
    { intro l_times'.
      specialize (IH (front ++ [prev]) curr l_times').
      rewrite <- app_assoc, length_app in IH. simpl in IH.
      now rewrite Nat.add_1_r in IH. }
    destruct (negb (delta prev curr =? 0)); rewrite Hnext.
    + now rewrite <- app_assoc.
    + reflexivity.
Qed.

Lemma ms_per_beat_outer_durations_b64 (groups : list (list Oto))
    (l_times : list float) :
  ms_per_beat_outer groups l_times = Ok (l_times ++ durations groups).
Proof.
  revert l_times. induction groups as [|g groups IH]; intro l_times; simpl.
  - now rewrite app_nil_r.
  - destruct g as [|first rest]; simpl.
    + apply IH.
    + pose proof (ms_per_beat_inner_durations_b64 rest [] first l_times) as H.
      simpl in H. rewrite H. simpl.
      now rewrite IH, app_assoc.
Qed.

Lemma median_of_ms_per_beat_eq_b64 (groups : list (list Oto)) :
  median_of_ms_per_beat groups = median (durations groups).
Proof.
  unfold median_of_ms_per_beat. now rewrite ms_per_beat_outer_durations_b64.
Qed.






(** *** When a check returns no name *)

Lemma scan_group_nil_iff (m t : float) (g : list Oto) :
  scan_group m t g = [] <->
  forall i prev curr, pair_at g i prev curr -> pair_passes m t prev curr.
Proof.
  destruct (scan_group_verdict m t g)
    as [[Hout Hall]|(i & p & c & Hp & Hbad & _ & Hout)].
  - tauto.
  - rewrite Hout. split; [discriminate|].
    intro Hall. exfalso. apply Hbad. now apply (Hall i).
Qed.

Lemma flat_map_nil_iff {A B : Type} (f : A -> list B) (l : list A) :
  flat_map f l = [] <-> forall a, In a l -> f a = [].
Proof.
  induction l as [|a l IH]; simpl; [tauto|]. split.
  - intros H. apply app_eq_nil in H as [Ha Hl].
    intros b [<-|Hb]; [exact Ha|]. now apply IH.
  - intro H. rewrite (H a) by now left. simpl. apply IH. auto.
Qed.

(** X8. In binary64, as the program computes: the inter-onset check
    returns no name exactly when every consecutive pair of every group
    passes, its rounded distance comparing equal to zero or lying inside
    the band of the rounded bounds. *)
Theorem detect_bad_aliases_none_iff
    (list_oto_2d : list (list Oto)) (ms_per_beat threshold : float) :
  detect_bad_aliases list_oto_2d ms_per_beat threshold = Ok [] <->
  forall g i prev curr,
    In g list_oto_2d -> pair_at g i prev curr ->
    pair_passes ms_per_beat threshold prev curr.
Proof.
  unfold detect_bad_aliases. rewrite detect_bad_aliases_outer_scan_b64. simpl.
  split.
  - intros [= H] g i prev curr Hg.
    rewrite flat_map_nil_iff in H. apply scan_group_nil_iff. now apply H.
  - intro H. f_equal. apply flat_map_nil_iff. intros g Hg.
    apply scan_group_nil_iff. intros i prev curr. now apply H.
Qed.

(** X9. In binary64, as the program computes: on non-empty groups the
    first-onset check returns no name exactly when the first record of
    every group has its rounded onset inside the band of the rounded
    bounds around [median_start]. *)
Theorem detect_bad_wavfiles_none_iff
    (list_oto_2d : list (list Oto))
    (ms_per_beat median_start threshold : float) :
  Forall (fun g => g <> []) list_oto_2d ->
  (detect_bad_wavfiles list_oto_2d ms_per_beat median_start threshold = Ok [] <->
   forall first rest,
     In (first :: rest) list_oto_2d ->
     in_start_band ms_per_beat median_start threshold (onset_time first)).
Proof.
  intro Hne. unfold detect_bad_wavfiles.
  rewrite detect_bad_wavfiles_loop_flags_b64 by exact Hne. simpl. split.
  - intros [= H] first rest Hg. rewrite flat_map_nil_iff in H.
    specialize (H _ Hg). simpl in H.
    apply start_bandb_in_start_band_b64.
    destruct (_ && _); [reflexivity|discriminate].
  - intro H. f_equal. apply flat_map_nil_iff. intros g Hg.
    destruct g as [|first rest]; [reflexivity|]. simpl.
    apply H, start_bandb_in_start_band_b64 in Hg. now rewrite Hg.
Qed.

Lemma detect_bad_wavfiles_none_iff_witness :
  detect_bad_wavfiles sample_groups 500 1000 0.2 = Ok [] <->
  forall first rest,
    In (first :: rest) sample_groups ->
    in_start_band 500 1000 0.2 (onset_time first).
Proof.
  apply (detect_bad_wavfiles_none_iff sample_groups 500 1000 0.2).
  repeat constructor; discriminate.
Defined.

(** *** Medians under a shift *)

Section Shift.

Variable c : float.

Lemma In_insert {A : Type} (lt : A -> A -> bool) (x y : A) (s : list A) :
  In y (insert lt x s) <-> y = x \/ In y s.
Proof.
  induction s as [|z s IH]; simpl; [intuition|].
  destruct (lt z x); simpl; rewrite ?IH; intuition.
Qed.

Lemma In_sorted {A : Type} (lt : A -> A -> bool) (y : A) (l : list A) :
  In y (sorted lt l) <-> In y l.
Proof.
  induction l as [|x l IH]; simpl; [tauto|].
  rewrite In_insert, IH. intuition.
Qed.


Lemma insert_map (x : float) (s : list float) :
  (forall y, In y s -> ((add_shift c) y <? (add_shift c) x) = (y <? x)) ->
  insert ltb ((add_shift c) x) (map (add_shift c) s) = map (add_shift c) (insert ltb x s).
Proof.
  induction s as [|y s IH]; intro H; simpl; [reflexivity|].
  rewrite (H y) by now left.
  destruct (y <? x); simpl; [|reflexivity].
  rewrite IH; [reflexivity|]. intros z Hz. apply H. now right.
Qed.

Lemma sorted_map (l : list float) :
  (forall x y, In x l -> In y l -> ((add_shift c) x <? (add_shift c) y) = (x <? y)) ->
  sorted ltb (map (add_shift c) l) = map (add_shift c) (sorted ltb l).
Proof.
  induction l as [|x l IH]; intro H; simpl; [reflexivity|].
  rewrite IH by (intros y z Hy Hz; apply H; now right).
  apply insert_map. intros y Hy. apply In_sorted in Hy.
  apply H; [now right|now left].
Qed.

Lemma nth_map_in (s : list float) (i : nat) :
  (i < List.length s)%nat -> nth i (map (add_shift c) s) 0 = (add_shift c) (nth i s 0).
Proof.
  intro Hi. rewrite (nth_indep _ 0 ((add_shift c) 0)) by now rewrite length_map.
  apply map_nth.
Qed.

Lemma median_map (l : list float) :
  (forall x y, In x l -> In y l ->
     ((add_shift c) x <? (add_shift c) y) = (x <? y) /\ ((add_shift c) x + (add_shift c) y) / 2 = (add_shift c) ((x + y) / 2)) ->
  median (map (add_shift c) l) = map_result (add_shift c) (median l).
Proof.
  intro H. unfold median.
  rewrite sorted_map by (intros x y Hx Hy; now apply H).
  rewrite length_map.
  set (s := sorted ltb l). set (n := List.length s).
  assert (Hin : forall i, (i < n)%nat -> In (nth i s 0) l).
  { intros i Hi. apply (In_sorted ltb). now apply nth_In. }
  destruct (Nat.eqb n 0) eqn:En; [reflexivity|].
  apply Nat.eqb_neq in En.
  assert (Hhalf : (n / 2 < n)%nat) by (apply Nat.div_lt; lia).
  destruct (Nat.odd n); unfold map_result, bind; cbv zeta; f_equal.
  - now apply nth_map_in.
  - rewrite !nth_map_in by (fold n; lia).
    apply H; apply Hin; lia.
Qed.

Lemma first_preutterances_first_onsets (groups : list (list Oto))
    (l : list float) :
  first_preutterances groups = Ok l -> l = first_onsets groups.
Proof.
  revert l. induction groups as [|g groups IH]; simpl; intro l.
  - now intros [= <-].
  - destruct g as [|first rest]; simpl; [discriminate|].
    destruct (first_preutterances groups) as [tl|e]; simpl; [|discriminate].
    intros [= <-]. unfold onset_time. now rewrite (IH tl).
Qed.

Lemma first_preutterances_shift (groups : list (list Oto)) :
  (forall g oto, In g groups -> In oto g ->
     onset_time (shift_offset c oto) = (add_shift c) (onset_time oto)) ->
  first_preutterances (shift_all c groups)
  = map_result (map (add_shift c)) (first_preutterances groups).
Proof.
  induction groups as [|g groups IH]; intro H; simpl; [reflexivity|].
  destruct g as [|first rest]; simpl; [reflexivity|].
  fold (shift_all c groups).
  rewrite IH by (intros g o Hg Ho; apply (H g o); [now right|exact Ho]).
  destruct (first_preutterances groups) as [tl|e]; simpl; [|reflexivity].
  pose proof (H (first :: rest) first (or_introl eq_refl)
                (or_introl eq_refl)) as Hf.
  unfold onset_time in Hf. simpl in Hf. now rewrite Hf.
Qed.

Lemma durations_of_group_shift (g : list Oto) :
  (forall oto, In oto g ->
     onset_time (shift_offset c oto) = (add_shift c) (onset_time oto)) ->
  (forall prev curr, In (prev, curr) (pairs g) ->
     (add_shift c) (onset_time curr) - (add_shift c) (onset_time prev)
     = onset_time curr - onset_time prev) ->
  durations_of_group (map (shift_offset c) g) = durations_of_group g.
Proof.
  destruct g as [|prev rest]; [reflexivity|]. revert prev.
  induction rest as [|curr rest IH]; intros prev Ho Hp; [reflexivity|].
  simpl map in *. rewrite !durations_of_group_cons_b64.
  assert (Hd : delta (shift_offset c prev) (shift_offset c curr)
               = delta prev curr).
  { unfold delta. rewrite (Ho prev), (Ho curr) by (simpl; tauto).
    apply Hp. now left. }
  rewrite Hd. f_equal. apply IH.
  - intros o Hin. apply Ho. now right.
  - intros p q Hin. apply Hp. now right.
Qed.

Lemma durations_shift (groups : list (list Oto)) :
  (forall g oto, In g groups -> In oto g ->
     onset_time (shift_offset c oto) = (add_shift c) (onset_time oto)) ->
  (forall g prev curr, In g groups -> In (prev, curr) (pairs g) ->
     (add_shift c) (onset_time curr) - (add_shift c) (onset_time prev)
     = onset_time curr - onset_time prev) ->
  durations (shift_all c groups) = durations groups.
Proof.
  induction groups as [|g groups IH]; intros Ho Hp; simpl; [reflexivity|].
  fold (shift_all c groups). f_equal.
  - apply durations_of_group_shift.
    + intros o Hin. apply (Ho g); [now left|exact Hin].
    + intros p q Hin. apply (Hp g); [now left|exact Hin].
  - apply IH.
    + intros g' o Hg. apply Ho. now right.
    + intros g' p q Hg. apply Hp. now right.
Qed.

End Shift.

(** C5 (as amended). In binary64, as the program computes: when the
    arithmetic of the shift is exact on the dataset ([shift_exact]), adding
    [c] to the offset of every record moves the result of
    [median_of_first_preutterance] by [c] and leaves the result of
    [median_of_ms_per_beat] as it is; where one raises, the other raises
    the same exception. *)
Theorem median_shift_when_exact (list_oto_2d : list (list Oto)) (c : float) :
  shift_exact c list_oto_2d ->
  median_of_first_preutterance (shift_all c list_oto_2d)
    = map_result (fun m => m + c) (median_of_first_preutterance list_oto_2d) /\
  median_of_ms_per_beat (shift_all c list_oto_2d)
    = median_of_ms_per_beat list_oto_2d.
Proof.
  intros (Ho & Hp & Hm). split.
  - unfold median_of_first_preutterance.
    rewrite (first_preutterances_shift c) by exact Ho.
    destruct (first_preutterances list_oto_2d) as [l|e] eqn:El; simpl;
      [|reflexivity].
    apply first_preutterances_first_onsets in El. subst l.
    rewrite (median_map c).
    + now destruct (median (first_onsets list_oto_2d)).
    + intros x y Hx Hy. exact (Hm x y Hx Hy).
  - rewrite !median_of_ms_per_beat_eq_b64.
    now rewrite (durations_shift c _ Ho Hp).
Qed.

Lemma sample_groups_shift_exact : shift_exact 250 sample_groups.
Proof.
  split; [|split].
  - intros g o [<-|[<-|[]]] Ho; simpl in Ho;
      repeat (destruct Ho as [<-|Ho]; [reflexivity|]); destruct Ho.
  - intros g p q [<-|[<-|[]]] Hp; simpl in Hp;
      repeat (destruct Hp as [[= <- <-]|Hp]; [reflexivity|]); destruct Hp.
  - intros x y Hx Hy; simpl in Hx, Hy;
      repeat (destruct Hx as [<-|Hx]; [|]); try destruct Hx;
      repeat (destruct Hy as [<-|Hy]; [|]); try destruct Hy;
      split; reflexivity.
Defined.

Lemma median_shift_when_exact_witness :
  median_of_first_preutterance (shift_all 250 sample_groups)
    = map_result (fun m => m + 250) (median_of_first_preutterance sample_groups) /\
  median_of_ms_per_beat (shift_all 250 sample_groups)
    = median_of_ms_per_beat sample_groups.
Proof.
  exact (median_shift_when_exact sample_groups 250 sample_groups_shift_exact).
Defined.

(** C5 (as stated) fails: two records one millisecond apart are two apart
    after every offset is moved by 2^53, so the beat length changes from 1
    to 2. *)
Lemma shift_changes_ms_per_beat :
  median_of_ms_per_beat near_pair = Ok 1 /\
  median_of_ms_per_beat (shift_all 9007199254740992 near_pair) = Ok 2.
Proof. split; reflexivity. Qed.

(** *** The run on a degenerate dataset *)









Section Run.

Local Open Scope string_scope.

Variable isdir : string -> bool.
Variable exists_ : string -> bool.
Variable load : string -> result OtoIni.



End Run.



End B64Facts.
